(** * check_l10n: unused-message detection for the viewer's Fluent catalog

    A shallow embedding of [external/check_l10n/check_l10n.mjs] and the
    properties its specification states about it.

    JavaScript strings are sequences of UTF-16 code units; they are modelled
    as lists of [N].  The string primitives the script calls ([includes],
    [indexOf], [slice], [split], [join], [replace]) are written out with the
    behaviour ECMAScript gives them on the arguments the script passes. *)

From Stdlib Require Import NArith ZArith List Bool Lia ZifyBool Ascii Permutation.
From Stdlib Require String.
Import String.StringSyntax.
From stdpp Require Import base list gmap.

Local Open Scope N_scope.
Local Open Scope nat_scope.

(** ** JavaScript strings *)

Abbreviation jsstring := (list N).

(** A literal written in ASCII, as code units. *)
Definition js (s : String.string) : jsstring :=
  List.map N_of_ascii (String.list_ascii_of_string s).
Arguments js s%_string_scope : simpl never.

Definition DQUOTE : N := 34%N.     (* the double quote *)
Definition SQUOTE : N := 39%N.     (* ' *)
Definition BACKTICK : N := 96%N.   (* ` *)
Definition DASH : N := 45%N.       (* - *)
Definition NEWLINE : N := 10%N.    (* \n *)
Definition DOLLAR : N := 36%N.     (* $ *)
Definition LBRACE : N := 123%N.    (* { *)
Definition EQUALS : N := 61%N.     (* = *)

(** [s.startsWith(pat)]: [pat] occurs in [s] at index 0. *)
Fixpoint startsWith (s pat : jsstring) {struct pat} : bool :=
  match pat, s with
  | [], _ => true
  | _ :: _, [] => false
  | a :: pat', b :: s' => (a =? b)%N && startsWith s' pat'
  end.

(** The search behind [indexOf] and [includes]: the smallest index at which
    [pat] occurs in [s], counted from [k], or -1. *)
Fixpoint indexOfFrom (s pat : jsstring) (k : Z) : Z :=
  if startsWith s pat then k
  else match s with
       | [] => (-1)%Z
       | _ :: s' => indexOfFrom s' pat (k + 1)%Z
       end.

Definition indexOf (s pat : jsstring) : Z := indexOfFrom s pat 0%Z.

Definition includes (s pat : jsstring) : bool :=
  negb (indexOf s pat =? -1)%Z.

(** [slice(b, e)] on strings and arrays alike: negative indices count from
    the end, both are clamped to the length, an empty span gives the empty
    sequence. *)
Definition relIndex (len k : Z) : Z :=
  if (k <? 0)%Z then Z.max (len + k) 0 else Z.min k len.

Definition slice {A} (s : list A) (b e : Z) : list A :=
  let len := Z.of_nat (length s) in
  let from := relIndex len b in
  let to := relIndex len e in
  take (Z.to_nat (to - from)) (drop (Z.to_nat from) s).

(** [slice(b)]: the end defaults to the length. *)
Definition sliceFrom {A} (s : list A) (b : Z) : list A :=
  slice s b (Z.of_nat (length s)).

(** [s.split(sep)] for a separator of one code unit, the only kind the
    script uses.  The result is never empty: the empty string splits into
    one empty piece. *)
Fixpoint split (s : jsstring) (sep : N) : list jsstring :=
  match s with
  | [] => [[]]
  | c :: s' =>
      if (c =? sep)%N then [] :: split s' sep
      else match split s' sep with
           | [] => [[c]]
           | w :: ws => (c :: w) :: ws
           end
  end.

(** [parts.join(sep)]. *)
Fixpoint join (parts : list jsstring) (sep : jsstring) : jsstring :=
  match parts with
  | [] => []
  | [p] => p
  | p :: rest => p ++ sep ++ join rest sep
  end.

(** [s.replace(pat, "")] with a string pattern: the first occurrence only. *)
Definition replaceEmpty (s pat : jsstring) : jsstring :=
  let idx := indexOf s pat in
  if (idx <? 0)%Z then s
  else take (Z.to_nat idx) s ++ drop (Z.to_nat idx + length pat) s.

(** [s === t] on strings. *)
Fixpoint strEq (s t : jsstring) : bool :=
  match s, t with
  | [], [] => true
  | a :: s', b :: t' => (a =? b)%N && strEq s' t'
  | _, _ => false
  end.

(** ** The corpus *)

Record SourceFile := mkSource { path : jsstring; content : jsstring }.

Record MatchLocation := mkLoc { loc_path : jsstring; loc_line : nat }.

Definition MIN_FRAGMENT_LENGTH : nat := 6.

(** ** isUsed *)

Definition isUsed (id : jsstring) (sources : list SourceFile) : bool :=
  let dq := [DQUOTE] ++ id ++ [DQUOTE] in
  let sq := [SQUOTE] ++ id ++ [SQUOTE] in
  let bt := [BACKTICK] ++ id ++ [BACKTICK] in
  existsb
    (fun f =>
       includes (content f) dq || includes (content f) sq
       || includes (content f) bt)
    sources.

(** ** findDynamicLocation *)

(** A counting loop [for (k = lo; ...; k++)] of [count] iterations whose body
    either returns from the function ([Some]) or goes on ([None]).  The loop
    over [i] starts at 1 and runs while [i < parts.length], that is
    [parts.length - 1] times; the loop over [j] starts at [i + 1] and runs
    while [j <= parts.length], that is [parts.length - i] times. *)
Fixpoint forRange {A} (body : nat -> option A) (lo count : nat) : option A :=
  match count with
  | 0 => None
  | S count' =>
      match body lo with
      | Some r => Some r
      | None => forRange body (S lo) count'
      end
  end.

Definition prefixOf (parts : list jsstring) (i : nat) : jsstring :=
  join (slice parts 0 (Z.of_nat i)) [DASH] ++ [DASH].

Definition suffixOf (parts : list jsstring) (j : nat) : jsstring :=
  if j <? length parts
  then [DASH] ++ join (sliceFrom parts (Z.of_nat j)) [DASH]
  else [].

(** The test of one file against one candidate (the condition of the [if]
    inside the loop over the sources). *)
Definition fileMatches (prefixWithVar suffix : jsstring) (f : SourceFile) : bool :=
  includes (content f) prefixWithVar
  && (strEq suffix [] || includes (content f) suffix).

Definition locate (prefixWithVar : jsstring) (f : SourceFile) : MatchLocation :=
  let idx := indexOf (content f) prefixWithVar in
  let line := length (split (slice (content f) 0 idx) NEWLINE) in
  {| loc_path := path f; loc_line := line |}.

(** The loop over the sources. *)
Fixpoint scanSources (prefixWithVar suffix : jsstring)
    (sources : list SourceFile) : option MatchLocation :=
  match sources with
  | [] => None
  | f :: rest =>
      if fileMatches prefixWithVar suffix f
      then Some (locate prefixWithVar f)
      else scanSources prefixWithVar suffix rest
  end.

(** The body of the inner loop, for one pair (i, j). *)
Definition tryCandidate (parts : list jsstring) (sources : list SourceFile)
    (i j : nat) : option MatchLocation :=
  let prefix := prefixOf parts i in
  let suffix := suffixOf parts j in
  if length prefix <? MIN_FRAGMENT_LENGTH then None
  else if negb (strEq suffix []) && (length suffix <? MIN_FRAGMENT_LENGTH)
  then None
  else
    let prefixWithVar := prefix ++ [DOLLAR; LBRACE] in
    scanSources prefixWithVar suffix sources.

Definition findDynamicLocation (id : jsstring) (sources : list SourceFile)
    : option MatchLocation :=
  let parts := split id DASH in
  forRange
    (fun i =>
       forRange (fun j => tryCandidate parts sources i j)
         (i + 1) (length parts - i))
    1 (length parts - 1).

(** ** extractFtlIds *)

Definition isLetter (c : N) : bool :=
  ((65 <=? c) && (c <=? 90) || (97 <=? c) && (c <=? 122))%N.

Definition isDigit (c : N) : bool := ((48 <=? c) && (c <=? 57))%N.

(** The class [[a-zA-Z0-9-]]. *)
Definition isIdChar (c : N) : bool :=
  isLetter c || isDigit c || (c =? DASH)%N.

(** The class [\s]: ECMAScript's WhiteSpace and LineTerminator code points. *)
Definition isSpace (c : N) : bool :=
  ((9 <=? c) && (c <=? 13) || (c =? 32) || (c =? 160) || (c =? 5760)
   || (8192 <=? c) && (c <=? 8202) || (c =? 8232) || (c =? 8233)
   || (c =? 8239) || (c =? 8287) || (c =? 12288) || (c =? 65279))%N.

(** A greedy [X*] followed by the rest of the pattern [k], as a backtracking
    matcher runs it: the longest run of [cls] first, then each shorter one.
    [taken] is the text the star has consumed so far. *)
Fixpoint matchStar {A} (cls : N -> bool)
    (k : jsstring -> jsstring -> option A)
    (taken s : jsstring) : option A :=
  match s with
  | c :: s' =>
      if cls c then
        match matchStar cls k (taken ++ [c]) s' with
        | Some r => Some r
        | None => k taken s
        end
      else k taken s
  | [] => k taken s
  end.

(** [line.match(re)] for the declaration pattern of [extractFtlIds] (start
    of input, a captured group made of a letter and a starred run of
    [[a-zA-Z0-9-]], a starred run of [\s], an equals sign), giving the
    capture group [match[1]].  Without the multiline flag the start anchor
    holds at index 0 only, so this is the one start position at which the
    pattern can match. *)
Definition matchDecl (line : jsstring) : option jsstring :=
  match line with
  | c :: rest =>
      if isLetter c then
        matchStar isIdChar
          (fun captured rest1 =>
             matchStar isSpace
               (fun _ rest2 =>
                  match rest2 with
                  | e :: _ => if (e =? EQUALS)%N then Some captured else None
                  | [] => None
                  end)
               [] rest1)
          [c] rest
      else None
  | [] => None
  end.

(** The body of [extractFtlIds] once the file is read: [ids] grows by
    [push] while the lines are visited in order. *)
Definition ftlIds (text : jsstring) : list jsstring :=
  let lines := split text NEWLINE in
  fold_left
    (fun ids line =>
       match matchDecl line with
       | Some id => ids ++ [id]
       | None => ids
       end)
    lines [].

(** ** The classification computed by main *)

Definition DynamicEntry : Type := jsstring * option MatchLocation.

Record Classification := mkClassification {
  notFound : list jsstring;
  dynamicEntries : list DynamicEntry;
  dynamicIds : gset jsstring;
  unused : list jsstring
}.

(** [set.has(x)]. *)
Definition has (x : jsstring) (s : gset jsstring) : bool := bool_decide (x ∈ s).

Definition classify (ids : list jsstring) (sources : list SourceFile)
    : Classification :=
  let notFound := List.filter (fun id => negb (isUsed id sources)) ids in
  let dynamicEntries :=
    List.filter
      (fun e : DynamicEntry =>
         match snd e with Some _ => true | None => false end)
      (List.map (fun id => (id, findDynamicLocation id sources)) notFound) in
  let dynamicIds : gset jsstring := list_to_set (List.map fst dynamicEntries) in
  let unused := List.filter (fun id => negb (has id dynamicIds)) notFound in
  mkClassification notFound dynamicEntries dynamicIds unused.

(** The script never builds the group of used identifiers: they are the
    declared identifiers that [notFound] leaves out. *)
Definition usedIds (ids : list jsstring) (sources : list SourceFile)
    : list jsstring :=
  List.filter (fun id => isUsed id sources) ids.

(** ** The file system and the process *)

(** What the script can see of the disk below the project root.  A file
    whose data is [None] cannot be read, a directory whose entries are
    [None] cannot be listed, and [Dangling] is a name on which [statSync]
    throws (a broken link). *)
#[local] Unset Elimination Schemes.
Inductive node :=
| File (data : option jsstring)
| Dir (entries : option (list (jsstring * node)))
| Dangling.
#[local] Set Elimination Schemes.

(** The outcome of a call that may throw; the exception carries the path
    that could not be read. *)
Inductive result (A : Type) :=
| Ok (a : A)
| Throw (failed : jsstring).
Arguments Ok {A} a.
Arguments Throw {A} failed.

Definition bindR {A B} (r : result A) (k : A -> result B) : result B :=
  match r with
  | Ok a => k a
  | Throw e => Throw e
  end.

(** The observable state of the process: what [console.log] has written,
    one entry per call, and [process.exitCode] ([None] is undefined). *)
Record Process := mkProcess {
  stdout : list jsstring;
  exitCode : option nat
}.

Definition M (A : Type) : Type := Process -> Process * result A.

Definition ret {A} (a : A) : M A := fun p => (p, Ok a).

Definition bind {A B} (m : M A) (k : A -> M B) : M B :=
  fun p =>
    match m p with
    | (p', Ok a) => k a p'
    | (p', Throw e) => (p', Throw e)
    end.

Definition lift {A} (r : result A) : M A := fun p => (p, r).

Definition console_log (s : jsstring) : M unit :=
  fun p => (mkProcess (stdout p ++ [s]) (exitCode p), Ok tt).

Definition setExitCode (n : nat) : M unit :=
  fun p => (mkProcess (stdout p) (Some n), Ok tt).

Declare Scope js_scope.
Delimit Scope js_scope with js.
Notation "x <- m ;; k" := (bind m (fun x => k))
  (at level 100, m at next level, right associativity) : js_scope.
Notation "m ;;; k" := (bind m (fun _ => k))
  (at level 100, right associativity) : js_scope.

(** A [for ... of] loop whose body has effects only. *)
Fixpoint forEach {A} (l : list A) (body : A -> M unit) : M unit :=
  match l with
  | [] => ret tt
  | x :: rest => bind (body x) (fun _ => forEach rest body)
  end.

Definition SLASH : N := 47%N.
Definition BACKSLASH : N := 92%N.
Definition DOT : N := 46%N.

(** [normalizeString] of node:path on a POSIX host, on the segments between
    the slashes of a path: an empty segment and [.] are dropped, [..]
    removes the segment kept last, unless there is none or it is [..]
    itself, in which case [..] is kept when the path is relative and
    dropped when it is absolute.  [kept] holds the segments kept so far,
    the last one first. *)
Fixpoint normalizeSegments (allowAboveRoot : bool)
    (segments kept : list jsstring) : list jsstring :=
  match segments with
  | [] => rev kept
  | seg :: rest =>
      if strEq seg [] || strEq seg [DOT] then
        normalizeSegments allowAboveRoot rest kept
      else if strEq seg [DOT; DOT] then
        match kept with
        | top :: below =>
            if strEq top [DOT; DOT]
            then normalizeSegments allowAboveRoot rest
                   (if allowAboveRoot then [DOT; DOT] :: kept else kept)
            else normalizeSegments allowAboveRoot rest below
        | [] =>
            normalizeSegments allowAboveRoot rest
              (if allowAboveRoot then [[DOT; DOT]] else [])
        end
      else normalizeSegments allowAboveRoot rest (seg :: kept)
  end.

Definition endsWithSlash (p : jsstring) : bool :=
  match rev p with
  | c :: _ => (c =? SLASH)%N
  | [] => false
  end.

(** [normalize(p)] of node:path on a POSIX host. *)
Definition normalize (p : jsstring) : jsstring :=
  if strEq p [] then [DOT]
  else
    let isAbsolute := startsWith p [SLASH] in
    let trailingSeparator := endsWithSlash p in
    let body :=
      join (normalizeSegments (negb isAbsolute) (split p SLASH) []) [SLASH] in
    if strEq body [] then
      if isAbsolute then [SLASH]
      else if trailingSeparator then [DOT; SLASH] else [DOT]
    else
      (if isAbsolute then [SLASH] else [])
      ++ body ++ (if trailingSeparator then [SLASH] else []).

(** [join(...args)] of node:path on a POSIX host: the non-empty arguments
    joined by slashes, then normalised; [.] when there is none. *)
Definition pathJoinN (args : list jsstring) : jsstring :=
  match List.filter (fun a => negb (strEq a [])) args with
  | [] => [DOT]
  | parts => normalize (join parts [SLASH])
  end.

(** [join(a, b)]. *)
Definition pathJoin (a b : jsstring) : jsstring := pathJoinN [a; b].

(** The index of the last occurrence of [c] in [s], if any. *)
Fixpoint lastIndexOf (s : jsstring) (c : N) : option nat :=
  match s with
  | [] => None
  | x :: s' =>
      match lastIndexOf s' c with
      | Some k => Some (S k)
      | None => if (x =? c)%N then Some 0 else None
      end
  end.

(** [extname(entry)] of node:path on a directory entry's name: from the
    last dot on, empty when there is no dot or the only dot leads. *)
Definition extname (entry : jsstring) : jsstring :=
  match lastIndexOf entry DOT with
  | None | Some 0 => []
  | Some k => drop k entry
  end.

Definition SEARCH_DIRS : list jsstring := [js "web"; js "src"].

Definition SEARCH_EXTENSIONS : gset jsstring :=
  {[ js ".html"; js ".js"; js ".mjs" ]}.

(** The entry named [name] of a directory, as path resolution finds it. *)
Fixpoint lookupEntry (entries : list (jsstring * node)) (name : jsstring)
    : option node :=
  match entries with
  | [] => None
  | (n, child) :: rest =>
      if strEq n name then Some child else lookupEntry rest name
  end.

Fixpoint resolve (n : node) (names : list jsstring) : option node :=
  match names with
  | [] => Some n
  | name :: rest =>
      match n with
      | Dir (Some entries) =>
          match lookupEntry entries name with
          | Some child => resolve child rest
          | None => None
          end
      | _ => None
      end
  end.

(** [readFileSync(p, "utf8")] on what [p] designates. *)
Definition readFileSync (p : jsstring) (target : option node) : result jsstring :=
  match target with
  | Some (File (Some data)) => Ok data
  | _ => Throw p
  end.

(** [collectFiles(dir, extensions)], [n] being what [dir] designates.  Each
    path found is paired with the file it designates. *)
Fixpoint collectFiles (dir : jsstring) (n : node) (extensions : gset jsstring)
    : result (list (jsstring * node)) :=
  match n with
  | Dir (Some entries) =>
      (fix loop (es : list (jsstring * node)) (results : list (jsstring * node))
         : result (list (jsstring * node)) :=
         match es with
         | [] => Ok results
         | (entry, child) :: es' =>
             let fullPath := pathJoin dir entry in
             match child with
             | Dangling => Throw fullPath
             | Dir _ =>
                 match collectFiles fullPath child extensions with
                 | Ok sub => loop es' (results ++ sub)
                 | Throw e => Throw e
                 end
             | File _ =>
                 if has (extname entry) extensions
                 then loop es' (results ++ [(fullPath, child)])
                 else loop es' results
             end
         end) entries []
  | _ => Throw dir
  end.

(** The machine the script runs on: the project root's path and what lies
    below it. *)
Record World := mkWorld { ROOT : jsstring; disk : node }.

Definition FTL_NAMES : list jsstring := [js "l10n"; js "en-US"; js "viewer.ftl"].

Definition FTL_PATH (w : World) : jsstring :=
  pathJoinN (ROOT w :: FTL_NAMES).

Definition extractFtlIds (w : World) : result (list jsstring) :=
  bindR (readFileSync (FTL_PATH w) (resolve (disk w) FTL_NAMES))
    (fun text => Ok (ftlIds text)).

(** [xs.flatMap(f)] and [xs.map(f)] with a callback that may throw. *)
Fixpoint flatMapR {A B} (f : A -> result (list B)) (xs : list A)
    : result (list B) :=
  match xs with
  | [] => Ok []
  | x :: rest =>
      bindR (f x) (fun ys => bindR (flatMapR f rest) (fun zs => Ok (ys ++ zs)))
  end.

Fixpoint mapR {A B} (f : A -> result B) (xs : list A) : result (list B) :=
  match xs with
  | [] => Ok []
  | x :: rest =>
      bindR (f x) (fun y => bindR (mapR f rest) (fun ys => Ok (y :: ys)))
  end.

Definition loadSources (w : World) (dirs : list jsstring)
    (extensions : gset jsstring) : result (list SourceFile) :=
  bindR
    (flatMapR
       (fun d =>
          match resolve (disk w) [d] with
          | Some n => collectFiles (pathJoin (ROOT w) d) n extensions
          | None => Throw (pathJoin (ROOT w) d)
          end)
       dirs)
    (fun files =>
       mapR
         (fun f : jsstring * node =>
            bindR (readFileSync (fst f) (Some (snd f)))
              (fun text => Ok (mkSource (fst f) text)))
         files).

(** ** main *)

(** A number in a template literal: its decimal digits. *)
Fixpoint digits (u : Decimal.uint) : jsstring :=
  match u with
  | Decimal.Nil => []
  | Decimal.D0 u' => 48%N :: digits u'
  | Decimal.D1 u' => 49%N :: digits u'
  | Decimal.D2 u' => 50%N :: digits u'
  | Decimal.D3 u' => 51%N :: digits u'
  | Decimal.D4 u' => 52%N :: digits u'
  | Decimal.D5 u' => 53%N :: digits u'
  | Decimal.D6 u' => 54%N :: digits u'
  | Decimal.D7 u' => 55%N :: digits u'
  | Decimal.D8 u' => 56%N :: digits u'
  | Decimal.D9 u' => 57%N :: digits u'
  end.

Definition numToString (n : nat) : jsstring := digits (Nat.to_uint n).

Definition ARROW : N := 8594%N.       (* U+2192 *)
Definition CHECK_MARK : N := 10003%N. (* U+2713 *)
Definition BALLOT_X : N := 10007%N.   (* U+2717 *)

Definition reportDynamic (w : World) (entries : list DynamicEntry) : M unit :=
  (console_log
     (js "~ " ++ numToString (length entries)
      ++ js " ID(s) likely built dynamically (template literals):" ++ [NEWLINE]) ;;;
   forEach entries
     (fun e =>
        match snd e with
        | Some loc =>
            let rel :=
              replaceEmpty
                (replaceEmpty (loc_path loc) (ROOT w ++ [SLASH]))
                (ROOT w ++ [BACKSLASH]) in
            console_log (js "  " ++ fst e) ;;;
            console_log
              (js "    " ++ [ARROW] ++ js " " ++ rel ++ js ":"
               ++ numToString (loc_line loc))
        | None => lift (Throw (fst e))
        end) ;;;
   console_log [])%js.

Definition reportUnused (unused : list jsstring) : M unit :=
  (if length unused =? 0
   then console_log ([CHECK_MARK] ++ js " All remaining message IDs are used.")
   else
     console_log
       ([BALLOT_X] ++ js " " ++ numToString (length unused)
        ++ js " unused message ID(s):" ++ [NEWLINE]) ;;;
     forEach unused (fun id => console_log (js "  " ++ id)) ;;;
     setExitCode 1)%js.

Definition main (w : World) : M unit :=
  (ids <- lift (extractFtlIds w) ;;
   console_log
     (js "Found " ++ numToString (length ids)
      ++ js " message IDs in viewer.ftl" ++ [NEWLINE]) ;;;
   sources <- lift (loadSources w SEARCH_DIRS SEARCH_EXTENSIONS) ;;
   console_log
     (js "Searching in " ++ numToString (length sources)
      ++ js " files under: " ++ join SEARCH_DIRS (js ", ") ++ [NEWLINE]) ;;;
   let c := classify ids sources in
   (if 0 <? length (dynamicEntries c)
    then reportDynamic w (dynamicEntries c)
    else ret tt) ;;;
   reportUnused (unused c))%js.

(** The script from start to end: a fresh process runs [main]. *)
Definition run (w : World) : Process * result unit :=
  main w (mkProcess [] None).

(** The status the process ends with: an uncaught exception ends it with 1,
    otherwise [process.exitCode], 0 when it was never set. *)
Definition completionStatus (r : Process * result unit) : nat :=
  match r with
  | (p, Ok _) => default 0 (exitCode p)
  | (_, Throw _) => 1
  end.

(** * The vocabulary of the specification *)

(** ** Containment *)

(** [pat] is a contiguous substring of [s]. *)
Definition contains (s pat : jsstring) : Prop :=
  exists pre post, s = pre ++ pat ++ post.

(** [pre] is what precedes the first occurrence of [pat] in [s]. *)
Definition firstOccurrence (s pat pre : jsstring) : Prop :=
  (exists post, s = pre ++ pat ++ post)
  /\ forall pre' post', s = pre' ++ pat ++ post' -> length pre <= length pre'.

(** ** The search of findDynamicLocation, as the specification words it *)

(** parts[0..i) joined by dash, with a trailing dash appended. *)
Definition specPrefix (parts : list jsstring) (i : nat) : jsstring :=
  join (take i parts) [DASH] ++ [DASH].

(** parts[j..N) joined by dash with a leading dash prepended, or the empty
    string if j = N. *)
Definition specSuffix (parts : list jsstring) (j : nat) : jsstring :=
  if decide (j = length parts) then []
  else [DASH] ++ join (drop j parts) [DASH].

(** The confidence guards. *)
Definition guardsPass (prefix suffix : jsstring) : Prop :=
  MIN_FRAGMENT_LENGTH <= length prefix
  /\ (suffix = [] \/ MIN_FRAGMENT_LENGTH <= length suffix).

(** The triple (i, j, file) passes the guards and the containment tests. *)
Definition accepted (id : jsstring) (i j : nat) (f : SourceFile) : Prop :=
  let parts := split id DASH in
  (1 <= i /\ i < j /\ j <= length parts)
  /\ guardsPass (specPrefix parts i) (specSuffix parts j)
  /\ contains (content f) (specPrefix parts i ++ [DOLLAR; LBRACE])
  /\ (specSuffix parts j = []
      \/ contains (content f) (specSuffix parts j)).

(** Smallest i, then smallest j, then first file in corpus order. *)
Definition lexLe (a b : nat * nat * nat) : Prop :=
  let '(i, j, k) := a in
  let '(i', j', k') := b in
  i < i' \/ (i = i' /\ (j < j' \/ (j = j' /\ k <= k'))).

(** ** The catalog parser, as the specification words it *)

(** [line] matches the declaration pattern and [id] is what it captures:
    [id] is a letter followed by letters, digits and dashes, it starts the
    line, and only whitespace separates it from an equals sign. *)
Definition declares (line id : jsstring) : Prop :=
  exists c cs ws rest,
    id = c :: cs
    /\ isLetter c = true
    /\ Forall (fun x => isIdChar x = true) cs
    /\ Forall (fun x => isSpace x = true) ws
    /\ line = id ++ ws ++ EQUALS :: rest.

(** The identifiers a sequence of lines declares: one per matching line, in
    the order of the lines, the other lines contributing nothing. *)
Inductive Declared : list jsstring -> list jsstring -> Prop :=
| Declared_nil : Declared [] []
| Declared_match line id lines ids :
    declares line id -> Declared lines ids ->
    Declared (line :: lines) (id :: ids)
| Declared_skip line lines ids :
    (forall id, ~ declares line id) -> Declared lines ids ->
    Declared (line :: lines) ids.

(** ** The classification *)

(** An identifier for which the dynamic search finds a location. *)
Definition isDynamic (id : jsstring) (sources : list SourceFile) : bool :=
  match findDynamicLocation id sources with Some _ => true | None => false end.

Inductive Class :=
| Used
| LikelyDynamic (loc : MatchLocation)
| Unused.

(** The group of the report that holds the identifiers of a class. *)
Definition group (ids : list jsstring) (sources : list SourceFile) (c : Class)
    : list jsstring :=
  match c with
  | Used => usedIds ids sources
  | LikelyDynamic _ => List.map fst (dynamicEntries (classify ids sources))
  | Unused => unused (classify ids sources)
  end.

(** An occurrence of [id] is given the class [c]: it is a member of that
    group, for LikelyDynamic as an entry with that location. *)
Definition classifiedAs (ids : list jsstring) (sources : list SourceFile)
    (id : jsstring) (c : Class) : Prop :=
  match c with
  | Used => In id (usedIds ids sources)
  | LikelyDynamic loc =>
      In (id, Some loc) (dynamicEntries (classify ids sources))
  | Unused => In id (unused (classify ids sources))
  end.

Definition jsstring_eq_dec : forall s t : jsstring, {s = t} + {s <> t} :=
  List.list_eq_dec BinNat.N.eq_dec.

(** ** Runs of the script *)

(** A computation that only writes: it returns normally, adds to the output
    and leaves the exit code as it was. *)
Definition writesOnly (m : M unit) : Prop :=
  forall p, exists out, m p = (mkProcess (stdout p ++ out) (exitCode p), Ok tt).

(** The first line of the report: the count of declared identifiers. *)
Definition countLine (ids : list jsstring) : jsstring :=
  js "Found " ++ numToString (length ids)
  ++ js " message IDs in viewer.ftl" ++ [NEWLINE].

(** ** Concrete runs *)

Definition catalogDir (text : jsstring) : jsstring * node :=
  (js "l10n",
   Dir (Some [(js "en-US", Dir (Some [(js "viewer.ftl", File (Some text))]))])).

(** A checkout with three declared identifiers: one quoted in the markup,
    one built by a template literal, one referenced nowhere. *)
Definition demoWorld : World :=
  mkWorld (js "/repo")
    (Dir (Some
      [catalogDir
         (js "pdfjs-editor-stamp-added-alert = x" ++ [NEWLINE]
          ++ js "foo-bar = y" ++ [NEWLINE] ++ js "ab = z");
       (js "web", Dir (Some
          [(js "viewer.html", File (Some (js "<a data-l10n-id='foo-bar'>")));
           (js "img.png", File None);
           (js "sub", Dir (Some
              [(js "b.mjs",
                File (Some (js "x" ++ [NEWLINE]
                            ++ js "`pdfjs-editor-${t}-added-alert`")))]))]));
       (js "src", Dir (Some []))])).

(** A checkout whose catalog is in place and whose web directory is
    missing. *)
Definition brokenWorld : World :=
  mkWorld (js "/repo") (Dir (Some [catalogDir (js "foo-bar = Some text")])).

(** A checkout at the top of the file system: the root is the slash. *)
Definition rootWorld : World :=
  mkWorld (js "/")
    (Dir (Some
      [catalogDir (js "pdfjs-x-y = z");
       (js "web", Dir (Some [(js "a.js", File (Some (js "`pdfjs-${v}`")))]));
       (js "src", Dir (Some []))])).

(** A checkout without a catalog. *)
Definition emptyWorld : World := mkWorld (js "/repo") (Dir (Some [])).

(** ** Well-formed identifiers and catalogs *)

(** An identifier as the declaration pattern captures it: a letter followed
    by letters, digits and dashes. *)
Definition validId (id : jsstring) : Prop :=
  exists c cs,
    id = c :: cs /\ isLetter c = true /\ Forall (fun x => isIdChar x = true) cs.

(** A catalog written out from (identifier, value) pairs, one declaration
    [id = value] per line. *)
Definition renderCatalog (entries : list (jsstring * jsstring)) : jsstring :=
  join (List.map (fun e => fst e ++ js " = " ++ snd e) entries) [NEWLINE].

(** ** The report, section by section *)

Definition searchLine (sources : list SourceFile) : jsstring :=
  js "Searching in " ++ numToString (length sources)
  ++ js " files under: " ++ join SEARCH_DIRS (js ", ") ++ [NEWLINE].

(** The path of a location as the report prints it. *)
Definition relativePath (root p : jsstring) : jsstring :=
  replaceEmpty (replaceEmpty p (root ++ [SLASH])) (root ++ [BACKSLASH]).

Definition dynamicSection (root : jsstring)
    (entries : list (jsstring * MatchLocation)) : list jsstring :=
  match entries with
  | [] => []
  | _ :: _ =>
      [js "~ " ++ numToString (length entries)
       ++ js " ID(s) likely built dynamically (template literals):" ++ [NEWLINE]]
      ++ flat_map
           (fun e =>
              [js "  " ++ fst e;
               js "    " ++ [ARROW] ++ js " "
               ++ relativePath root (loc_path (snd e)) ++ js ":"
               ++ numToString (loc_line (snd e))])
           entries
      ++ [[]]
  end.

Definition unusedSection (unused : list jsstring) : list jsstring :=
  match unused with
  | [] => [[CHECK_MARK] ++ js " All remaining message IDs are used."]
  | _ :: _ =>
      [[BALLOT_X] ++ js " " ++ numToString (length unused)
       ++ js " unused message ID(s):" ++ [NEWLINE]]
      ++ List.map (fun id => js "  " ++ id) unused
  end.

(** The dynamic entries with their locations, for the identifiers not found
    statically. *)
Definition locatedEntries (ids : list jsstring) (sources : list SourceFile)
    : list (jsstring * MatchLocation) :=
  omap
    (fun id =>
       match findDynamicLocation id sources with
       | Some loc => Some (id, loc)
       | None => None
       end)
    (List.filter (fun id => negb (isUsed id sources)) ids).

(** ** The walk over the source directories *)

(** What one entry of a directory contributes to [collectFiles]: the body
    of its loop. *)
Definition collectEntry (dir : jsstring) (extensions : gset jsstring)
    (e : jsstring * node) : result (list (jsstring * node)) :=
  let fullPath := pathJoin dir (fst e) in
  match snd e with
  | Dangling => Throw fullPath
  | Dir _ => collectFiles fullPath (snd e) extensions
  | File _ =>
      if has (extname (fst e)) extensions then Ok [(fullPath, snd e)]
      else Ok []
  end.

(** [target] is what a chain of entry names leads to from [n]: each name is
    the name of an entry of the directory reached so far. *)
Inductive Reaches : node -> list jsstring -> node -> Prop :=
| Reaches_here n : Reaches n [] n
| Reaches_entry entries name child names target :
    In (name, child) entries ->
    Reaches child names target ->
    Reaches (Dir (Some entries)) (name :: names) target.

(** A collected item, for the directory [dir] whose listing is [n]: a file
    that a non-empty chain of entry names leads to from [n], whose own name
    has one of the wanted extensions, under the path obtained by joining the
    names of the chain to [dir] one after the other. *)
Definition collected (dir : jsstring) (n : node) (extensions : gset jsstring)
    (item : jsstring * node) : Prop :=
  exists names data,
    names <> []
    /\ Reaches n names (File data)
    /\ has (extname (List.last names [])) extensions = true
    /\ item = (fold_left pathJoin names dir, File data).

(** What the script reads in [demoWorld]. *)
Definition demoIds : list jsstring :=
  [js "pdfjs-editor-stamp-added-alert"; js "foo-bar"; js "ab"].

Definition demoSources : list SourceFile :=
  [mkSource (js "/repo/web/viewer.html") (js "<a data-l10n-id='foo-bar'>");
   mkSource (js "/repo/web/sub/b.mjs")
     (js "x" ++ [NEWLINE] ++ js "`pdfjs-editor-${t}-added-alert`")].

(** The web directory of [demoWorld]. *)
Definition demoWeb : node :=
  Dir (Some
    [(js "viewer.html", File (Some (js "<a data-l10n-id='foo-bar'>")));
     (js "img.png", File None);
     (js "sub", Dir (Some
        [(js "b.mjs",
          File (Some (js "x" ++ [NEWLINE]
                      ++ js "`pdfjs-editor-${t}-added-alert`")))]))]).

(** * Properties *)

(** ** JavaScript string primitives *)

Section StringFacts.

Lemma startsWith_spec s pat :
  startsWith s pat = true <-> exists post, s = pat ++ post.
Proof.
  revert s. induction pat as [|a pat IH]; intros s; simpl.
  - split; [intros _; by exists s | done].
  - destruct s as [|b s].
    + split; [done | intros [post H]; discriminate].
    + rewrite andb_true_iff, N.eqb_eq, IH. split.
      * intros [-> [post ->]]. by exists post.
      * intros [post H]. injection H as -> ->. split; [done | by exists post].
Qed.

Lemma indexOfFrom_cases s pat k :
  (forall pre post, s <> pre ++ pat ++ post)
     /\ indexOfFrom s pat k = (-1)%Z
  \/ exists pre, firstOccurrence s pat pre
       /\ indexOfFrom s pat k = (k + Z.of_nat (length pre))%Z.
Proof.
  revert k. induction s as [|c s IH]; intros k; simpl.
  - destruct (startsWith [] pat) eqn:E.
    + right. exists []. split; [|simpl; lia].
      apply startsWith_spec in E. split; [done | simpl; lia].
    + left. split; [|done]. intros pre post H.
      destruct pre; [|discriminate]. simpl in H.
      assert (startsWith [] pat = true) by (apply startsWith_spec; eauto).
      congruence.
  - destruct (startsWith (c :: s) pat) eqn:E.
    + right. exists []. split; [|simpl; lia].
      apply startsWith_spec in E. split; [done | simpl; lia].
    + destruct (IH (k + 1)%Z) as [[Hno Hm]|[pre [[[post Hs] Hmin] Hi]]].
      * left. split; [|done]. intros pre post H.
        destruct pre as [|x pre]; simpl in H.
        -- assert (startsWith (c :: s) pat = true)
             by (apply startsWith_spec; eauto).
           congruence.
        -- injection H as _ H. by apply Hno in H.
      * right. exists (c :: pre). split.
        -- split; [exists post; simpl; by rewrite <- Hs|].
           intros pre' post' H. destruct pre' as [|x pre']; simpl in H.
           ++ assert (startsWith (c :: s) pat = true)
                by (apply startsWith_spec; eauto).
              congruence.
           ++ injection H as _ H. apply Hmin in H. simpl. lia.
        -- rewrite Hi. simpl length. lia.
Qed.

Lemma indexOf_cases s pat :
  (~ contains s pat /\ indexOf s pat = (-1)%Z)
  \/ exists pre, firstOccurrence s pat pre
       /\ indexOf s pat = Z.of_nat (length pre).
Proof.
  unfold indexOf.
  destruct (indexOfFrom_cases s pat 0) as [[Hno H]|[pre [Hf H]]].
  - left. split; [|done]. intros (pre & post & E). by apply Hno in E.
  - right. exists pre. split; [done | lia].
Qed.

Lemma includes_spec s pat : includes s pat = true <-> contains s pat.
Proof.
  unfold includes.
  destruct (indexOf_cases s pat) as [[Hno ->]|[pre [[[post E] _] ->]]].
  - simpl. split; [done | intros H; by apply Hno in H].
  - split; [intros _; by exists pre, post|intros _].
    apply negb_true_iff, Z.eqb_neq. lia.
Qed.

Lemma includes_false s pat : includes s pat = false <-> ~ contains s pat.
Proof.
  rewrite <- includes_spec. by destruct (includes s pat).
Qed.

Lemma strEq_spec s t : strEq s t = true <-> s = t.
Proof.
  revert t. induction s as [|a s IH]; intros [|b t]; simpl; try done.
  rewrite andb_true_iff, N.eqb_eq, IH. split; [by intros [-> ->]|].
  intros H. by injection H.
Qed.

Lemma strEq_nil s : strEq s [] = true <-> s = [].
Proof. apply strEq_spec. Qed.

Lemma slice_prefix {A} (s : list A) (n : nat) : slice s 0 (Z.of_nat n) = take n s.
Proof.
  unfold slice, relIndex. simpl. rewrite (Z.min_l 0) by lia.
  replace (Z.of_nat n <? 0)%Z with false by (symmetry; apply Z.ltb_ge; lia).
  change (Z.to_nat 0) with 0. rewrite drop_0, Z.sub_0_r.
  destruct (Nat.le_gt_cases n (length s)) as [H|H].
  - rewrite Z.min_l by lia. by rewrite Nat2Z.id.
  - rewrite Z.min_r by lia. rewrite Nat2Z.id.
    by rewrite !take_ge by lia.
Qed.

Lemma sliceFrom_drop {A} (s : list A) (n : nat) : sliceFrom s (Z.of_nat n) = drop n s.
Proof.
  unfold sliceFrom, slice, relIndex.
  replace (Z.of_nat n <? 0)%Z with false by (symmetry; apply Z.ltb_ge; lia).
  replace (Z.of_nat (length s) <? 0)%Z with false
    by (symmetry; apply Z.ltb_ge; lia).
  rewrite Z.min_id.
  destruct (Nat.le_gt_cases n (length s)) as [H|H].
  - rewrite Z.min_l by lia. rewrite Nat2Z.id.
    apply take_ge. rewrite length_drop. lia.
  - rewrite Z.min_r by lia. rewrite Nat2Z.id.
    rewrite !drop_ge by lia. apply take_nil.
Qed.

Lemma split_nonempty s sep : split s sep <> [].
Proof.
  destruct s as [|c s]; simpl; [done|].
  destruct (c =? sep)%N; [done|]. by destruct (split s sep).
Qed.

Lemma split_length s sep :
  length (split s sep) = S (count_occ N.eq_dec s sep).
Proof.
  induction s as [|c s IH]; simpl; [done|].
  destruct (N.eqb_spec c sep) as [->|Hne].
  - destruct (N.eq_dec sep sep); [|done]. simpl. by rewrite IH.
  - destruct (N.eq_dec c sep); [done|].
    destruct (split s sep) eqn:E; [by apply split_nonempty in E|].
    simpl in *. done.
Qed.

Lemma join_cons p q rest sep :
  join (p :: q :: rest) sep = p ++ sep ++ join (q :: rest) sep.
Proof. reflexivity. Qed.

Lemma split_join s sep :
  join (split s sep) [sep] = s /\ Forall (fun piece => sep ∉ piece) (split s sep).
Proof.
  induction s as [|c s [IHj IHf]]; simpl.
  - split; [done|]. constructor; [|done]. by apply not_elem_of_nil.
  - destruct (N.eqb_spec c sep) as [->|Hne].
    + split.
      * destruct (split s sep) eqn:E; [by apply split_nonempty in E|].
        rewrite join_cons. by rewrite IHj.
      * constructor; [apply not_elem_of_nil | done].
    + destruct (split s sep) as [|w ws] eqn:E; [by apply split_nonempty in E|].
      split.
      * destruct ws; [simpl in *; by rewrite IHj|].
        rewrite join_cons. rewrite join_cons in IHj. by rewrite <- IHj.
      * inversion IHf; subst. constructor; [|done].
        intros Hin. apply elem_of_cons in Hin as [->|Hin]; done.
Qed.

Lemma split_no_sep s sep : sep ∉ s -> split s sep = [s].
Proof.
  induction s as [|c s IH]; simpl; [done|]. intros Hn.
  destruct (N.eqb_spec c sep) as [->|Hne].
  - exfalso. apply Hn. by left.
  - rewrite IH; [done|]. intros Hin. apply Hn. by right.
Qed.

End StringFacts.

(** ** The loops of findDynamicLocation *)

Section SearchFacts.

Lemma prefixOf_spec parts i : prefixOf parts i = specPrefix parts i.
Proof. unfold prefixOf, specPrefix. by rewrite slice_prefix. Qed.

Lemma suffixOf_spec parts j :
  j <= length parts -> suffixOf parts j = specSuffix parts j.
Proof.
  intros Hj. unfold suffixOf, specSuffix. rewrite sliceFrom_drop.
  destruct (Nat.ltb_spec j (length parts)); destruct (decide (j = length parts));
    try done; lia.
Qed.

Lemma forRange_None {A} (body : nat -> option A) lo n :
  forRange body lo n = None <-> forall x, lo <= x < lo + n -> body x = None.
Proof.
  revert lo. induction n as [|n IH]; intros lo; simpl.
  - split; [intros _ x Hx; lia | done].
  - destruct (body lo) eqn:E.
    + split; [done|]. intros H. rewrite H in E by lia. done.
    + rewrite IH. split.
      * intros H x Hx. destruct (decide (x = lo)) as [->|Hne]; [done|].
        apply H. lia.
      * intros H x Hx. apply H. lia.
Qed.

Lemma forRange_Some {A} (body : nat -> option A) lo n r :
  forRange body lo n = Some r ->
  exists x, lo <= x < lo + n /\ body x = Some r
            /\ forall y, lo <= y < x -> body y = None.
Proof.
  revert lo. induction n as [|n IH]; intros lo; simpl; [done|].
  destruct (body lo) eqn:E.
  - intros [= ->]. exists lo. repeat split; [lia | lia | done | intros; lia].
  - intros H. apply IH in H as (x & Hx & Hb & Hmin).
    exists x. repeat split; [lia | lia | done |].
    intros y Hy. destruct (decide (y = lo)) as [->|Hne]; [done|].
    apply Hmin. lia.
Qed.

Lemma fileMatches_spec pv suffix f :
  fileMatches pv suffix f = true <->
  contains (content f) pv /\ (suffix = [] \/ contains (content f) suffix).
Proof.
  unfold fileMatches.
  by rewrite andb_true_iff, orb_true_iff, !includes_spec, strEq_nil.
Qed.

Lemma scanSources_None pv suffix sources :
  scanSources pv suffix sources = None <->
  forall k f, sources !! k = Some f -> fileMatches pv suffix f = false.
Proof.
  induction sources as [|f0 rest IH]; simpl.
  - split; [intros _ k f H; done | done].
  - destruct (fileMatches pv suffix f0) eqn:E.
    + split; [done|]. intros H. specialize (H 0 f0 eq_refl). congruence.
    + rewrite IH. split.
      * intros H [|k] f Hk; simpl in Hk; [by injection Hk as <-|by eapply H].
      * intros H k f Hk. by apply (H (S k)).
Qed.

Lemma scanSources_Some pv suffix sources loc :
  scanSources pv suffix sources = Some loc ->
  exists k f, sources !! k = Some f /\ fileMatches pv suffix f = true
    /\ loc = locate pv f
    /\ forall k' f', k' < k -> sources !! k' = Some f' ->
         fileMatches pv suffix f' = false.
Proof.
  induction sources as [|f0 rest IH]; simpl; [done|].
  destruct (fileMatches pv suffix f0) eqn:E.
  - intros [= <-]. exists 0, f0. repeat split; try done. intros; lia.
  - intros H. apply IH in H as (k & f & Hk & Hm & Hl & Hmin).
    exists (S k), f. repeat split; try done.
    intros [|k'] f' Hlt Hk'; simpl in Hk'; [by injection Hk' as <-|].
    eapply Hmin; [|done]. lia.
Qed.

Lemma tryCandidate_Some parts sources i j loc :
  tryCandidate parts sources i j = Some loc <->
  guardsPass (prefixOf parts i) (suffixOf parts j)
  /\ scanSources (prefixOf parts i ++ [DOLLAR; LBRACE]) (suffixOf parts j)
       sources = Some loc.
Proof.
  unfold tryCandidate, guardsPass.
  destruct (Nat.ltb_spec (length (prefixOf parts i)) MIN_FRAGMENT_LENGTH)
    as [Hp|Hp].
  { split; [done|]. intros [[? _] _]. lia. }
  destruct (strEq (suffixOf parts j) []) eqn:Es; simpl.
  { apply strEq_nil in Es. split; [intros H|by intros [_ H]].
    split; [|done]. split; [done | by left]. }
  assert (suffixOf parts j <> []) as Hne.
  { intros H. apply strEq_nil in H. congruence. }
  destruct (Nat.ltb_spec (length (suffixOf parts j)) MIN_FRAGMENT_LENGTH)
    as [Hs|Hs].
  - split; [done|]. intros [[_ [?|?]] _]; [done | lia].
  - split; [intros H|by intros [_ H]].
    split; [|done]. split; [done | by right].
Qed.

Lemma locate_spec pv f :
  contains (content f) pv ->
  exists pre, firstOccurrence (content f) pv pre
    /\ locate pv f = mkLoc (path f) (S (count_occ N.eq_dec pre NEWLINE)).
Proof.
  intros Hc. unfold locate.
  destruct (indexOf_cases (content f) pv) as [[Hno _]|[pre [Hf ->]]]; [done|].
  exists pre. split; [done|]. f_equal.
  rewrite slice_prefix, split_length.
  destruct Hf as [[post ->] _]. by rewrite take_app_length.
Qed.

End SearchFacts.

Section DynamicSearch.

Lemma accepted_tryCandidate id i j k f sources :
  sources !! k = Some f -> accepted id i j f ->
  tryCandidate (split id DASH) sources i j <> None.
Proof.
  intros Hk ((Hi & Hij & Hj) & Hg & Hc & Hs) Hnone.
  rewrite <- prefixOf_spec in Hg, Hc.
  rewrite <- suffixOf_spec in Hg, Hs by done.
  destruct (scanSources (prefixOf (split id DASH) i ++ [DOLLAR; LBRACE])
              (suffixOf (split id DASH) j) sources) as [loc|] eqn:E.
  - assert (tryCandidate (split id DASH) sources i j = Some loc) as H
      by (by apply tryCandidate_Some).
    congruence.
  - assert (fileMatches (prefixOf (split id DASH) i ++ [DOLLAR; LBRACE])
              (suffixOf (split id DASH) j) f = false) as H
      by (eapply scanSources_None; eauto).
    assert (fileMatches (prefixOf (split id DASH) i ++ [DOLLAR; LBRACE])
              (suffixOf (split id DASH) j) f = true) as H'
      by (by apply fileMatches_spec).
    congruence.
Qed.

(** C3. findDynamicLocation returns the location of the first accepted
    triple (i, j, file) in the order smallest i, then smallest j, then first
    file of the corpus: that file's path, and one plus the number of
    newlines before the first occurrence of the prefix followed by the
    interpolation-open marker.  It returns none exactly when no triple is
    accepted.  This holds for every identifier, with or without a dash. *)
Theorem findDynamicLocation_first_accepted id sources :
  match findDynamicLocation id sources with
  | Some loc =>
      exists i j k f pre,
        sources !! k = Some f
        /\ accepted id i j f
        /\ (forall i' j' k' f', sources !! k' = Some f' ->
              accepted id i' j' f' -> lexLe (i, j, k) (i', j', k'))
        /\ firstOccurrence (content f)
             (specPrefix (split id DASH) i ++ [DOLLAR; LBRACE]) pre
        /\ loc = mkLoc (path f) (1 + count_occ N.eq_dec pre NEWLINE)
  | None =>
      forall i j k f, sources !! k = Some f -> ~ accepted id i j f
  end.
Proof.
  destruct (findDynamicLocation id sources) as [loc|] eqn:E;
    unfold findDynamicLocation in E; cbv zeta in E.
  - apply forRange_Some in E as (i & Hi & Hin & Hmini).
    apply forRange_Some in Hin as (j & Hj & Htry & Hminj).
    apply tryCandidate_Some in Htry as [Hg Hscan].
    apply scanSources_Some in Hscan as (k & f & Hk & Hm & -> & Hmink).
    apply fileMatches_spec in Hm as [Hc Hs].
    destruct (locate_spec _ _ Hc) as (pre & Hfirst & Hloc).
    assert (j <= length (split id DASH)) as Hjle by lia.
    rewrite prefixOf_spec in Hg, Hc, Hfirst, Hloc.
    exists i, j, k, f, pre. split; [done|]. split.
    { split; [lia|]. rewrite <- (suffixOf_spec _ _ Hjle). done. }
    split; [|by rewrite prefixOf_spec].
    intros i' j' k' f' Hk' Hacc. simpl.
    pose proof Hacc as ((Hi1 & Hi2 & Hi3) & Hg' & Hc' & Hs').
    destruct (Nat.lt_trichotomy i' i) as [Hlt|[->|Hgt]]; [|right; split; [done|]|by left].
    { exfalso. apply (accepted_tryCandidate _ _ _ _ _ _ Hk' Hacc).
      assert (forRange (fun j0 => tryCandidate (split id DASH) sources i' j0)
                (i' + 1) (length (split id DASH) - i') = None) as Hn
        by (apply Hmini; lia).
      eapply forRange_None in Hn; [done | lia]. }
    destruct (Nat.lt_trichotomy j' j) as [Hlt|[->|Hgt]]; [|right; split; [done|]|by left].
    { exfalso. apply (accepted_tryCandidate _ _ _ _ _ _ Hk' Hacc).
      apply Hminj. lia. }
    destruct (Nat.le_gt_cases k k') as [Hle|Hlt]; [done|]. exfalso.
    specialize (Hmink _ _ Hlt Hk').
    rewrite <- prefixOf_spec in Hc'. rewrite <- suffixOf_spec in Hs' by done.
    assert (fileMatches (prefixOf (split id DASH) i ++ [DOLLAR; LBRACE])
              (suffixOf (split id DASH) j) f' = true)
      by (by apply fileMatches_spec).
    congruence.
  - intros i j k f Hk Hacc.
    apply (accepted_tryCandidate _ _ _ _ _ _ Hk Hacc).
    pose proof Hacc as ((Hi1 & Hi2 & Hi3) & _).
    rewrite forRange_None in E.
    specialize (E i ltac:(lia)). rewrite forRange_None in E. apply E. lia.
Qed.

End DynamicSearch.

(** ** The three groups *)

Section ClassificationFacts.

Variable sources : list SourceFile.

Lemma dynamic_ids_filter l :
  List.map fst
    (List.filter
       (fun e : DynamicEntry =>
          match snd e with Some _ => true | None => false end)
       (List.map (fun id => (id, findDynamicLocation id sources)) l))
  = List.filter (fun id => isDynamic id sources) l.
Proof.
  induction l as [|id l IH]; simpl; [done|]. unfold isDynamic at 1.
  destruct (findDynamicLocation id sources); simpl; by rewrite IH.
Qed.

Lemma dynamicEntries_In ids id o :
  In (id, o) (dynamicEntries (classify ids sources)) <->
  In id ids /\ isUsed id sources = false
  /\ o = findDynamicLocation id sources /\ o <> None.
Proof.
  unfold classify; simpl. rewrite filter_In, in_map_iff. simpl. split.
  - intros [(x & [= -> <-] & Hx) Ho]. apply filter_In in Hx as [Hx Hu].
    apply negb_true_iff in Hu. repeat split; try done.
    by destruct (findDynamicLocation id sources).
  - intros (Hin & Hu & -> & Hne). split.
    + exists id. split; [done|]. apply filter_In. by rewrite Hu.
    + by destruct (findDynamicLocation id sources).
Qed.

Lemma dynamic_ids_In ids id :
  In id (List.map fst (dynamicEntries (classify ids sources))) <->
  In id ids /\ isUsed id sources = false /\ isDynamic id sources = true.
Proof.
  unfold classify; simpl. rewrite dynamic_ids_filter, !filter_In.
  rewrite negb_true_iff. tauto.
Qed.

Lemma has_dynamicIds ids id :
  has id (dynamicIds (classify ids sources)) = true <->
  In id ids /\ isUsed id sources = false /\ isDynamic id sources = true.
Proof.
  rewrite <- dynamic_ids_In. unfold has. rewrite bool_decide_eq_true.
  unfold classify; simpl. by rewrite elem_of_list_to_set, list_elem_of_In.
Qed.

Lemma unused_filter ids :
  unused (classify ids sources)
  = List.filter (fun id => negb (isDynamic id sources))
      (notFound (classify ids sources)).
Proof.
  change (unused (classify ids sources))
    with (List.filter
            (fun id => negb (has id (dynamicIds (classify ids sources))))
            (notFound (classify ids sources))).
  apply filter_ext_in. intros id Hin. f_equal.
  unfold classify in Hin; simpl in Hin. apply filter_In in Hin as [Hin Hu].
  apply negb_true_iff in Hu.
  destruct (isDynamic id sources) eqn:Ed.
  - by apply has_dynamicIds.
  - apply not_true_is_false. intros H. apply has_dynamicIds in H as (_ & _ & H).
    congruence.
Qed.

Lemma unused_In ids id :
  In id (unused (classify ids sources)) <->
  In id ids /\ isUsed id sources = false /\ isDynamic id sources = false.
Proof.
  rewrite unused_filter. unfold classify; simpl. rewrite !filter_In.
  rewrite !negb_true_iff. tauto.
Qed.

Lemma usedIds_In ids id :
  In id (usedIds ids sources) <-> In id ids /\ isUsed id sources = true.
Proof. unfold usedIds. by rewrite filter_In. Qed.

Lemma filter_split {A} (p : A -> bool) (l : list A) :
  Permutation l (List.filter p l ++ List.filter (fun x => negb (p x)) l).
Proof.
  induction l as [|x l IH]; simpl; [done|].
  destruct (p x); simpl.
  - by constructor.
  - etrans; [|apply Permutation_middle]. by constructor.
Qed.

End ClassificationFacts.

(** C1. The three groups partition the declared identifiers: together they
    hold every declared identifier as many times as it is declared, and no
    identifier is a member of two groups. *)
Theorem classification_partition ids sources :
  let c := classify ids sources in
  Permutation ids
    (usedIds ids sources ++ List.map fst (dynamicEntries c) ++ unused c)
  /\ (forall id, ~ (In id (usedIds ids sources)
                    /\ In id (List.map fst (dynamicEntries c))))
  /\ (forall id, ~ (In id (usedIds ids sources) /\ In id (unused c)))
  /\ (forall id, ~ (In id (List.map fst (dynamicEntries c))
                    /\ In id (unused c))).
Proof.
  intros c. split; [|repeat split].
  - subst c. rewrite unused_filter.
    unfold classify at 1; cbn [dynamicEntries]. rewrite dynamic_ids_filter.
    etrans; [apply (filter_split (fun id => isUsed id sources))|].
    apply Permutation_app_head.
    apply (filter_split (fun id => isDynamic id sources)).
  - intros id [H1 H2]. apply usedIds_In in H1 as [_ H1].
    apply dynamic_ids_In in H2 as (_ & H2 & _). congruence.
  - intros id [H1 H2]. apply usedIds_In in H1 as [_ H1].
    apply unused_In in H2 as (_ & H2 & _). congruence.
  - intros id [H1 H2]. apply dynamic_ids_In in H1 as (_ & _ & H1).
    apply unused_In in H2 as (_ & _ & H2). congruence.
Qed.

(** C2. isUsed holds exactly when some file's content contains the
    identifier immediately bounded by a pair of double quotes, of single
    quotes or of backticks; and an identifier for which it holds is in the
    Used group whenever it is declared, and never in the other two. *)
Theorem isUsed_quoted_literal id sources :
  (isUsed id sources = true <->
   exists f q, In f sources /\ In q [DQUOTE; SQUOTE; BACKTICK]
               /\ contains (content f) ([q] ++ id ++ [q]))
  /\ (isUsed id sources = true ->
      forall ids,
        (In id ids -> In id (usedIds ids sources))
        /\ ~ In id (unused (classify ids sources))
        /\ ~ In id (List.map fst (dynamicEntries (classify ids sources)))).
Proof.
  split.
  - unfold isUsed. cbv zeta. rewrite existsb_exists. split.
    + intros (f & Hf & H). apply orb_true_iff in H as [H|H];
        [apply orb_true_iff in H as [H|H]|]; apply includes_spec in H;
        exists f; [exists DQUOTE|exists SQUOTE|exists BACKTICK];
        (split; [done|]); (split; [simpl; auto | done]).
    + intros (f & q & Hf & Hq & Hc). exists f. split; [done|].
      apply includes_spec in Hc. simpl in Hq.
      destruct Hq as [<-|[<-|[<-|[]]]]; rewrite Hc;
        by rewrite ?orb_true_r.
  - intros Hu ids. split; [|split].
    + intros Hin. by apply usedIds_In.
    + intros H. apply unused_In in H as (_ & H & _). congruence.
    + intros H. apply dynamic_ids_In in H as (_ & H & _). congruence.
Qed.

Section Guards.

Lemma scanSources_finds pv suffix sources f :
  In f sources -> fileMatches pv suffix f = true ->
  exists loc, scanSources pv suffix sources = Some loc.
Proof.
  intros Hin Hm.
  destruct (scanSources pv suffix sources) as [loc|] eqn:E; [by exists loc|].
  apply list_elem_of_In, list_elem_of_lookup in Hin as [k Hk].
  rewrite scanSources_None in E. specialize (E _ _ Hk). congruence.
Qed.

Lemma findDynamicLocation_candidate id sources i j loc :
  1 <= i -> i < j -> j <= length (split id DASH) ->
  tryCandidate (split id DASH) sources i j = Some loc ->
  findDynamicLocation id sources <> None.
Proof.
  intros Hi Hij Hj Htry Hnone. unfold findDynamicLocation in Hnone.
  cbv zeta in Hnone. rewrite forRange_None in Hnone.
  specialize (Hnone i ltac:(lia)). rewrite forRange_None in Hnone.
  specialize (Hnone j ltac:(lia)). congruence.
Qed.

End Guards.

(** C4. A candidate whose prefix (with its trailing dash) has fewer than 6
    characters is never accepted, nor one whose suffix is non-empty and has
    fewer than 6 characters (with its leading dash), whatever the corpus
    holds; so every location findDynamicLocation returns comes from a
    candidate that passes both guards.  A candidate with an empty suffix is
    accepted on the prefix test alone. *)
Theorem fragment_length_guards id sources :
  let parts := split id DASH in
  (forall i j, length (prefixOf parts i) < 6 ->
     tryCandidate parts sources i j = None)
  /\ (forall i j, suffixOf parts j <> [] -> length (suffixOf parts j) < 6 ->
        tryCandidate parts sources i j = None)
  /\ (forall loc, findDynamicLocation id sources = Some loc ->
        exists i j,
          (1 <= i /\ i < j /\ j <= length parts)
          /\ tryCandidate parts sources i j = Some loc
          /\ 6 <= length (prefixOf parts i)
          /\ (suffixOf parts j = [] \/ 6 <= length (suffixOf parts j)))
  /\ (forall i j f,
        suffixOf parts j = [] -> 6 <= length (prefixOf parts i) ->
        In f sources ->
        contains (content f) (prefixOf parts i ++ [DOLLAR; LBRACE]) ->
        (exists loc, tryCandidate parts sources i j = Some loc)
        /\ (1 <= i -> i < j -> j <= length parts ->
            findDynamicLocation id sources <> None)).
Proof.
  intros parts. repeat split.
  - intros i j Hp. destruct (tryCandidate parts sources i j) eqn:E; [|done].
    apply tryCandidate_Some in E as [[Hg _] _].
    unfold MIN_FRAGMENT_LENGTH in Hg. lia.
  - intros i j Hne Hs. destruct (tryCandidate parts sources i j) eqn:E; [|done].
    apply tryCandidate_Some in E as [[_ [Hg|Hg]] _]; [done|].
    unfold MIN_FRAGMENT_LENGTH in Hg. lia.
  - intros loc E. unfold findDynamicLocation in E; cbv zeta in E.
    apply forRange_Some in E as (i & Hi & Hin & _).
    apply forRange_Some in Hin as (j & Hj & Htry & _).
    exists i, j. split; [subst parts; lia|]. split; [done|].
    by apply tryCandidate_Some in Htry as [[Hp Hs] _].
  - assert (exists loc, scanSources (prefixOf parts i ++ [DOLLAR; LBRACE])
                          (suffixOf parts j) sources = Some loc) as [loc Hl].
    { eapply scanSources_finds; [done|]. apply fileMatches_spec. by auto. }
    exists loc. apply tryCandidate_Some. split; [|done]. split; [done | by left].
  - intros Hi Hij Hj.
    assert (exists loc, scanSources (prefixOf parts i ++ [DOLLAR; LBRACE])
                          (suffixOf parts j) sources = Some loc) as [loc Hl].
    { eapply scanSources_finds; [done|]. apply fileMatches_spec. by auto. }
    apply (findDynamicLocation_candidate id sources i j loc); try done.
    apply tryCandidate_Some. split; [|done]. split; [done | by left].
Qed.

(** C5. An identifier without a dash has one component, so the search has
    no candidate and findDynamicLocation returns none; declared and not
    statically used, such an identifier is in the Unused group. *)
Theorem dash_free_is_unused id sources :
  ~ In DASH id ->
  length (split id DASH) = 1
  /\ findDynamicLocation id sources = None
  /\ forall ids, In id ids -> isUsed id sources = false ->
       In id (unused (classify ids sources)).
Proof.
  intros Hd. rewrite <- list_elem_of_In in Hd.
  assert (findDynamicLocation id sources = None) as Hnone.
  { unfold findDynamicLocation. by rewrite (split_no_sep _ _ Hd). }
  split; [by rewrite (split_no_sep _ _ Hd)|]. split; [done|].
  intros ids Hin Hu. apply unused_In. unfold isDynamic. by rewrite Hnone.
Qed.

(** C6. With a non-empty suffix, a file passes the test of a candidate
    exactly when its content contains the prefix immediately followed by the
    interpolation-open marker and contains the suffix; where the suffix
    occurs plays no part, so a suffix that occurs only before the prefix,
    and apart from it, is accepted as well. *)
Theorem suffix_containment_is_file_wide prefix suffix f :
  suffix <> [] ->
  (fileMatches (prefix ++ [DOLLAR; LBRACE]) suffix f = true <->
   contains (content f) (prefix ++ [DOLLAR; LBRACE])
   /\ contains (content f) suffix)
  /\ (forall a b c,
        content f = a ++ suffix ++ b ++ (prefix ++ [DOLLAR; LBRACE]) ++ c ->
        fileMatches (prefix ++ [DOLLAR; LBRACE]) suffix f = true)
  /\ (forall parts i j sources,
        prefix = prefixOf parts i -> suffix = suffixOf parts j ->
        guardsPass prefix suffix ->
        tryCandidate parts (f :: sources) i j
        = if fileMatches (prefix ++ [DOLLAR; LBRACE]) suffix f
          then Some (locate (prefix ++ [DOLLAR; LBRACE]) f)
          else tryCandidate parts sources i j).
Proof.
  intros Hne. split; [|split].
  - rewrite fileMatches_spec. split; [|by intros [? ?]; auto].
    by intros [? [?|?]].
  - intros a b c Hc. apply fileMatches_spec. split.
    + exists (a ++ suffix ++ b), c. rewrite Hc. by rewrite <- !app_assoc.
    + right. exists a, (b ++ (prefix ++ [DOLLAR; LBRACE]) ++ c). by rewrite Hc.
  - intros parts i j sources -> -> Hg.
    destruct (fileMatches _ _ f) eqn:Ef.
    + apply tryCandidate_Some. split; [done|]. simpl. by rewrite Ef.
    + destruct (tryCandidate parts sources i j) as [loc|] eqn:Et.
      * apply tryCandidate_Some. split; [done|]. simpl. rewrite Ef.
        by apply tryCandidate_Some in Et as [_ ?].
      * destruct (tryCandidate parts (f :: sources) i j) as [loc|] eqn:Et';
          [|done].
        apply tryCandidate_Some in Et' as [_ Hs]. simpl in Hs.
        rewrite Ef in Hs.
        assert (tryCandidate parts sources i j = Some loc)
          by (by apply tryCandidate_Some).
        congruence.
Qed.

(** ** The catalog parser *)

Section ParserFacts.

Lemma matchStar_sound {A} cls (k : jsstring -> jsstring -> option A) taken s r :
  matchStar cls k taken s = Some r ->
  exists run rest,
    s = run ++ rest /\ Forall (fun c => cls c = true) run
    /\ k (taken ++ run) rest = Some r.
Proof.
  revert taken. induction s as [|c s IH]; intros taken; simpl.
  - intros H. exists [], []. rewrite (app_nil_r taken).
    split; [done|]. split; [constructor | done].
  - destruct (cls c) eqn:Ec.
    + destruct (matchStar cls k (taken ++ [c]) s) as [r'|] eqn:E.
      * intros [= ->]. apply IH in E as (run & rest & -> & Hrun & Hk).
        exists (c :: run), rest. split; [done|]. split; [by constructor|].
        by rewrite <- app_assoc in Hk.
      * intros H. exists [], (c :: s). rewrite (app_nil_r taken).
        split; [done|]. split; [constructor | done].
    + intros H. exists [], (c :: s). rewrite (app_nil_r taken).
      split; [done|]. split; [constructor | done].
Qed.

Lemma matchStar_complete {A} cls (k : jsstring -> jsstring -> option A)
    taken run rest :
  Forall (fun c => cls c = true) run ->
  k (taken ++ run) rest <> None ->
  matchStar cls k taken (run ++ rest) <> None.
Proof.
  intros Hrun. revert taken.
  induction Hrun as [|c run Hc Hrun IH]; intros taken Hk; simpl.
  - rewrite app_nil_r in Hk. destruct rest as [|c s]; simpl; [done|].
    destruct (cls c); [|done].
    by destruct (matchStar cls k (taken ++ [c]) s).
  - rewrite Hc.
    destruct (matchStar cls k (taken ++ [c]) (run ++ rest)) eqn:E; [done|].
    exfalso. revert E. apply IH. by rewrite <- app_assoc.
Qed.

Lemma letter_is_idChar c : isLetter c = true -> isIdChar c = true.
Proof. unfold isIdChar. by intros ->. Qed.

Lemma space_not_idChar c : isSpace c = true -> isIdChar c = false.
Proof.
  unfold isSpace, isIdChar, isLetter, isDigit, DASH. lia.
Qed.

Lemma run_unique (P : N -> bool) l1 l2 h1 t1 h2 t2 :
  Forall (fun x => P x = true) l1 -> Forall (fun x => P x = true) l2 ->
  P h1 = false -> P h2 = false ->
  l1 ++ h1 :: t1 = l2 ++ h2 :: t2 -> l1 = l2.
Proof.
  intros H1. revert l2. induction H1 as [|x l1 Hx H1 IH]; intros l2 H2 Hh1 Hh2.
  - destruct H2 as [|y l2 Hy H2]; [done|]. simpl. intros [= -> _]. congruence.
  - destruct H2 as [|y l2 Hy H2]; simpl.
    + intros [= -> _]. congruence.
    + intros [= -> E]. f_equal. by apply IH.
Qed.

Lemma declares_tail ws rest :
  Forall (fun x => isSpace x = true) ws ->
  exists h t, ws ++ EQUALS :: rest = h :: t /\ isIdChar h = false.
Proof.
  intros [|w ws' Hw _]; simpl.
  - by exists EQUALS, rest.
  - exists w, (ws' ++ EQUALS :: rest). split; [done|].
    by apply space_not_idChar.
Qed.

Lemma declares_unique line id id' :
  declares line id -> declares line id' -> id = id'.
Proof.
  intros (c & cs & ws & rest & -> & Hc & Hcs & Hws & ->).
  intros (c' & cs' & ws' & rest' & -> & Hc' & Hcs' & Hws' & E).
  destruct (declares_tail ws rest Hws) as (h & t & Et & Hh).
  destruct (declares_tail ws' rest' Hws') as (h' & t' & Et' & Hh').
  rewrite Et, Et' in E.
  eapply (run_unique isIdChar); [| | | |exact E]; try done;
    constructor; auto using letter_is_idChar.
Qed.

Lemma matchDecl_sound line id : matchDecl line = Some id -> declares line id.
Proof.
  destruct line as [|c rest]; simpl; [done|].
  destruct (isLetter c) eqn:Ec; [|done]. intros H.
  apply matchStar_sound in H as (cs & rest1 & -> & Hcs & H).
  apply matchStar_sound in H as (ws & rest2 & -> & Hws & H).
  destruct rest2 as [|e rest2]; [done|].
  destruct (N.eqb_spec e EQUALS) as [->|]; [|done]. injection H as <-.
  by exists c, cs, ws, rest2.
Qed.

Lemma matchDecl_complete line id : declares line id -> matchDecl line = Some id.
Proof.
  intros Hd.
  assert (matchDecl line <> None) as Hsome.
  { destruct Hd as (c & cs & ws & rest & -> & Hc & Hcs & Hws & ->).
    simpl. rewrite Hc. apply matchStar_complete; [done|].
    apply matchStar_complete; [done|]. done. }
  destruct (matchDecl line) as [id'|] eqn:E; [|done].
  f_equal. apply matchDecl_sound in E. by eapply declares_unique.
Qed.

Lemma ftlIds_fold lines acc :
  fold_left
    (fun ids line =>
       match matchDecl line with
       | Some id => ids ++ [id]
       | None => ids
       end)
    lines acc
  = acc ++ omap matchDecl lines.
Proof.
  revert acc. induction lines as [|line lines IH]; intros acc; simpl.
  - by rewrite app_nil_r.
  - rewrite IH. destruct (matchDecl line); [|done]. by rewrite <- app_assoc.
Qed.

Lemma Declared_unique lines ids ids' :
  Declared lines ids -> Declared lines ids' -> ids = ids'.
Proof.
  intros H. revert ids'.
  induction H as [|line id lines ids Hd _ IH|line lines ids Hn _ IH];
    intros ids' H'; inversion H'; subst; try done.
  - f_equal; [by eapply declares_unique | by apply IH].
  - exfalso. by eapply H1.
  - exfalso. by eapply Hn.
  - by apply IH.
Qed.

Lemma matchDecl_no_letter line :
  match line with [] => True | c :: _ => isLetter c = false end ->
  matchDecl line = None.
Proof. destruct line as [|c rest]; simpl; [done|]. by intros ->. Qed.

Lemma omap_Declared lines : Declared lines (omap matchDecl lines).
Proof.
  induction lines as [|line lines IH]; simpl; [constructor|].
  destruct (matchDecl line) as [id|] eqn:E.
  - constructor; [by apply matchDecl_sound | done].
  - apply Declared_skip; [|done]. intros id Hd.
    apply matchDecl_complete in Hd. congruence.
Qed.

End ParserFacts.

(** C8. The parser cuts the catalog text at its newlines and returns the
    identifiers its lines declare: for each line that starts with a letter
    followed by letters, digits and dashes, then optional whitespace, then
    an equals sign, the identifier it starts with, in the order of the
    lines and with duplicates kept; every other line adds nothing, among
    them the empty lines and the lines that start with anything but a
    letter (comments, indented lines); no other sequence fits that
    description, and the parser has a result on every text. *)
Theorem ftlIds_declared text :
  exists lines,
    join lines [NEWLINE] = text
    /\ Forall (fun line => ~ In NEWLINE line) lines
    /\ lines <> []
    /\ Declared lines (ftlIds text)
    /\ (forall ids, Declared lines ids -> ids = ftlIds text)
    /\ (forall line,
          match line with [] => True | c :: _ => isLetter c = false end ->
          forall id, ~ declares line id).
Proof.
  exists (split text NEWLINE).
  destruct (split_join text NEWLINE) as [Hj Hf].
  split; [done|]. split.
  { eapply Forall_impl; [exact Hf|]. intros line Hn Hin.
    by apply Hn, list_elem_of_In. }
  split; [apply split_nonempty|].
  assert (Declared (split text NEWLINE) (ftlIds text)) as Hd.
  { unfold ftlIds. cbv zeta. rewrite ftlIds_fold. apply omap_Declared. }
  split; [done|]. split.
  - intros ids Hids. by eapply Declared_unique.
  - intros line Hl id Hdecl. apply matchDecl_complete in Hdecl.
    rewrite (matchDecl_no_letter line Hl) in Hdecl. done.
Qed.

Lemma count_occ_filter (p : jsstring -> bool) l x :
  p x = true ->
  count_occ jsstring_eq_dec (List.filter p l) x = count_occ jsstring_eq_dec l x.
Proof.
  intros Hp. induction l as [|a l IH]; simpl; [done|].
  destruct (jsstring_eq_dec a x) as [->|Hne].
  - rewrite Hp. simpl. destruct (jsstring_eq_dec x x); [|done]. by rewrite IH.
  - destruct (p a); simpl; [|done].
    by destruct (jsstring_eq_dec a x).
Qed.

(** C10. The classes given to occurrences of one identifier string are one
    and the same class, with one and the same location when it is
    LikelyDynamic, and the group of that class holds the identifier as many
    times as the catalog declares it. *)
Theorem same_identifier_same_class ids sources id c1 c2 :
  classifiedAs ids sources id c1 ->
  classifiedAs ids sources id c2 ->
  c1 = c2
  /\ count_occ jsstring_eq_dec (group ids sources c1) id
     = count_occ jsstring_eq_dec ids id.
Proof.
  intros H1 H2. split.
  - destruct c1 as [|loc1|], c2 as [|loc2|]; unfold classifiedAs in H1, H2;
      try done;
      repeat match goal with
        | H : In _ (usedIds _ _) |- _ => apply usedIds_In in H as [_ H]
        | H : In _ (unused _) |- _ => apply unused_In in H as (_ & ? & H)
        | H : In _ (dynamicEntries _) |- _ =>
            apply dynamicEntries_In in H as (_ & ? & H & _)
        end;
      unfold isDynamic in *; try congruence.
    all: destruct (findDynamicLocation id sources); congruence.
  - destruct c1 as [|loc1|]; unfold classifiedAs in H1; unfold group.
    + apply usedIds_In in H1 as [_ H1]. unfold usedIds.
      by apply count_occ_filter.
    + apply dynamicEntries_In in H1 as (_ & Hu & Hl & _).
      unfold classify; cbn [dynamicEntries]. rewrite dynamic_ids_filter.
      rewrite count_occ_filter by (unfold isDynamic; by rewrite <- Hl).
      apply count_occ_filter. by rewrite Hu.
    + apply unused_In in H1 as (_ & Hu & Hd). rewrite unused_filter.
      rewrite count_occ_filter by (by rewrite Hd).
      unfold classify; cbn [notFound]. apply count_occ_filter. by rewrite Hu.
Qed.

(** ** The process *)

(** One statement of [main]: a call whose outcome is known, or a line
    written. *)
Ltac step_lift H := unfold bind at 1; unfold lift at 1; rewrite H.
Ltac step_log :=
  unfold bind at 1; unfold console_log at 1; cbn [stdout exitCode].

Section ProcessFacts.

Lemma ret_writesOnly : writesOnly (ret tt).
Proof. intros p. exists []. unfold ret. rewrite app_nil_r. by destruct p. Qed.

Lemma console_log_writesOnly s : writesOnly (console_log s).
Proof. intros p. by exists [s]. Qed.

Lemma bind_writesOnly (m : M unit) (k : unit -> M unit) :
  writesOnly m -> (forall x, writesOnly (k x)) -> writesOnly (bind m k).
Proof.
  intros Hm Hk p. unfold bind. destruct (Hm p) as [out1 ->].
  destruct (Hk tt (mkProcess (stdout p ++ out1) (exitCode p))) as [out2 ->].
  exists (out1 ++ out2). simpl. by rewrite app_assoc.
Qed.

Lemma forEach_writesOnly {A} (l : list A) (body : A -> M unit) :
  (forall x, In x l -> writesOnly (body x)) -> writesOnly (forEach l body).
Proof.
  induction l as [|x l IH]; intros Hb; simpl.
  - apply ret_writesOnly.
  - apply bind_writesOnly; [apply Hb; by left|].
    intros _. apply IH. intros y Hy. apply Hb. by right.
Qed.

Lemma reportDynamic_writesOnly w entries :
  (forall e, In e entries -> snd e <> None) ->
  writesOnly (reportDynamic w entries).
Proof.
  intros Hall. unfold reportDynamic.
  apply bind_writesOnly; [apply console_log_writesOnly|]. intros _.
  apply bind_writesOnly; [|intros _; apply console_log_writesOnly].
  apply forEach_writesOnly. intros e He. specialize (Hall e He).
  destruct (snd e) as [loc|]; [|done].
  apply bind_writesOnly; [apply console_log_writesOnly|]. intros _.
  apply console_log_writesOnly.
Qed.

Lemma dynamicEntries_located ids sources e :
  In e (dynamicEntries (classify ids sources)) -> snd e <> None.
Proof.
  unfold classify; cbn [dynamicEntries]. intros H.
  apply filter_In in H as [_ H]. by destruct (snd e).
Qed.

Lemma reportUnused_run unused p :
  exists out,
    reportUnused unused p
    = (mkProcess (stdout p ++ out)
         (match unused with [] => exitCode p | _ :: _ => Some 1 end), Ok tt).
Proof.
  unfold reportUnused. destruct unused as [|id rest].
  - change (length (@nil jsstring) =? 0) with true. cbv iota.
    apply console_log_writesOnly.
  - change (length (id :: rest) =? 0) with false. cbv iota.
    set (u := id :: rest).
    assert (writesOnly (forEach u (fun id0 => console_log (js "  " ++ id0))))
      as Hw by (apply forEach_writesOnly; intros; apply console_log_writesOnly).
    unfold bind. unfold console_log at 1. cbv beta iota.
    match goal with |- context [forEach _ _ ?q] => destruct (Hw q) as [out ->] end.
    unfold setExitCode. cbn [stdout exitCode]. eexists. by rewrite <- app_assoc.
Qed.

Lemma main_run w ids sources :
  extractFtlIds w = Ok ids ->
  loadSources w SEARCH_DIRS SEARCH_EXTENSIONS = Ok sources ->
  exists out,
    run w
    = (mkProcess out
         (match unused (classify ids sources) with
          | [] => None
          | _ :: _ => Some 1
          end), Ok tt).
Proof.
  intros Hids Hsrc. unfold run, main.
  step_lift Hids. step_log. step_lift Hsrc. step_log.
  cbv zeta. unfold bind at 1.
  match goal with
  | |- context [(if ?b then ?m1 else ?m2) ?q] =>
      assert (writesOnly (if b then m1 else m2)) as Hw
  end.
  { destruct (0 <? _); [|apply ret_writesOnly].
    apply reportDynamic_writesOnly, dynamicEntries_located. }
  match goal with
  | |- context [(if ?b then ?m1 else ?m2) ?q] => destruct (Hw q) as [out ->]
  end.
  cbn [stdout exitCode].
  match goal with
  | |- context [reportUnused ?u ?q] =>
      destruct (reportUnused_run u q) as [out' ->]
  end.
  by eexists.
Qed.

Lemma main_catalog_unreadable w e :
  extractFtlIds w = Throw e -> run w = (mkProcess [] None, Throw e).
Proof. intros H. unfold run, main, bind, lift. by rewrite H. Qed.

Lemma main_sources_unreadable w ids e :
  extractFtlIds w = Ok ids ->
  loadSources w SEARCH_DIRS SEARCH_EXTENSIONS = Throw e ->
  run w = (mkProcess [countLine ids] None, Throw e).
Proof.
  intros Hids Hsrc. unfold run, main.
  step_lift Hids. step_log. by step_lift Hsrc.
Qed.

End ProcessFacts.

(** C7. When the run completes, the process ends with status 0 if the
    Unused group is empty and with status 1 if it is not: the status is
    non-zero exactly when some identifier is classified Unused. *)
Theorem completion_status w p :
  run w = (p, Ok tt) ->
  exists ids sources,
    extractFtlIds w = Ok ids
    /\ loadSources w SEARCH_DIRS SEARCH_EXTENSIONS = Ok sources
    /\ (unused (classify ids sources) = [] -> completionStatus (run w) = 0)
    /\ (unused (classify ids sources) <> [] -> completionStatus (run w) = 1)
    /\ (completionStatus (run w) <> 0 <-> unused (classify ids sources) <> []).
Proof.
  intros Hrun.
  destruct (extractFtlIds w) as [ids|e] eqn:Hids;
    [|by rewrite (main_catalog_unreadable w e Hids) in Hrun].
  destruct (loadSources w SEARCH_DIRS SEARCH_EXTENSIONS) as [sources|e] eqn:Hsrc;
    [|by rewrite (main_sources_unreadable w ids e Hids Hsrc) in Hrun].
  exists ids, sources. split; [done|]. split; [done|].
  destruct (main_run w ids sources Hids Hsrc) as [out ->].
  destruct (unused (classify ids sources)); simpl; repeat split; done.
Qed.

Section ReadFailures.

Lemma flatMapR_throws {A B} (f : A -> result (list B)) xs x :
  In x xs -> (exists e, f x = Throw e) -> exists e, flatMapR f xs = Throw e.
Proof.
  induction xs as [|y xs IH]; simpl; [done|]. intros [->|Hin] Hx.
  - destruct Hx as [e ->]. by exists e.
  - destruct (f y) as [ys|e]; simpl; [|by exists e].
    destruct (IH Hin Hx) as [e ->]. by exists e.
Qed.

Lemma collectFiles_unlistable dir n extensions :
  (forall entries, n <> Dir (Some entries)) ->
  collectFiles dir n extensions = Throw dir.
Proof.
  intros Hn. destruct n as [data|[entries|]|]; try done.
  by specialize (Hn entries).
Qed.

Lemma extractFtlIds_unreadable w :
  (forall data, resolve (disk w) FTL_NAMES <> Some (File (Some data))) ->
  extractFtlIds w = Throw (FTL_PATH w).
Proof.
  intros Hn. unfold extractFtlIds, readFileSync.
  destruct (resolve (disk w) FTL_NAMES) as [[[data|]|?|]|]; try done.
  by specialize (Hn data).
Qed.

End ReadFailures.

(** C9, as the script has it.  When the catalog cannot be read the run
    aborts with the read failure and has written nothing.  When the catalog
    is read and a search directory cannot be listed, loading the sources
    fails and the run aborts with that failure before any classification
    is reported, having written the count of declared identifiers and
    nothing else; the same holds of any failure to load the sources. *)
Theorem read_failure_aborts w :
  ((forall data, resolve (disk w) FTL_NAMES <> Some (File (Some data))) ->
   run w = (mkProcess [] None, Throw (FTL_PATH w)))
  /\ (forall ids e,
        extractFtlIds w = Ok ids ->
        loadSources w SEARCH_DIRS SEARCH_EXTENSIONS = Throw e ->
        run w = (mkProcess [countLine ids] None, Throw e))
  /\ (forall d,
        In d SEARCH_DIRS ->
        (forall entries, resolve (disk w) [d] <> Some (Dir (Some entries))) ->
        exists e, loadSources w SEARCH_DIRS SEARCH_EXTENSIONS = Throw e)
  /\ (forall ids d,
        extractFtlIds w = Ok ids ->
        In d SEARCH_DIRS ->
        (forall entries, resolve (disk w) [d] <> Some (Dir (Some entries))) ->
        exists e, run w = (mkProcess [countLine ids] None, Throw e)).
Proof.
  assert (forall d,
            In d SEARCH_DIRS ->
            (forall entries, resolve (disk w) [d] <> Some (Dir (Some entries))) ->
            exists e, loadSources w SEARCH_DIRS SEARCH_EXTENSIONS = Throw e)
    as Hdir.
  { intros d Hd Hn. unfold loadSources.
    match goal with
    | |- context [flatMapR ?f SEARCH_DIRS] =>
        destruct (flatMapR_throws f SEARCH_DIRS d Hd) as [e ->]
    end; [|by exists e].
    destruct (resolve (disk w) [d]) as [n|] eqn:E; [|by eexists].
    exists (pathJoin (ROOT w) d). apply collectFiles_unlistable.
    intros entries ->. by apply (Hn entries). }
  split; [|split; [|split]].
  - intros Hn. by apply main_catalog_unreadable, extractFtlIds_unreadable.
  - apply main_sources_unreadable.
  - exact Hdir.
  - intros ids d Hids Hd Hn. destruct (Hdir d Hd Hn) as [e He].
    exists e. by apply main_sources_unreadable.
Qed.

(** C9 as stated fails: with the web directory missing the run aborts, yet
    the count of declared identifiers has been written by then. *)
Lemma partial_report_before_abort :
  resolve (disk brokenWorld) [js "web"] = None
  /\ snd (run brokenWorld) = Throw (js "/repo/web")
  /\ stdout (fst (run brokenWorld))
     = [js "Found 1 message IDs in viewer.ftl" ++ [NEWLINE]]
  /\ ~ (forall w e, snd (run w) = Throw e -> stdout (fst (run w)) = []).
Proof.
  split; [by vm_compute|]. split; [by vm_compute|]. split; [by vm_compute|].
  intros H. specialize (H brokenWorld (js "/repo/web")).
  vm_compute in H. by specialize (H eq_refl).
Qed.

(** ** The scenarios of the specification *)

Example scenario_static_use :
  isUsed (js "foo-bar") [mkSource (js "web/a.js") ([DQUOTE] ++ js "foo-bar" ++ [DQUOTE])]
  = true.
Proof. by vm_compute. Qed.

Example scenario_template_literal :
  findDynamicLocation (js "pdfjs-editor-stamp-added-alert")
    [mkSource (js "web/a.js") (js "x");
     mkSource (js "web/b.js")
       (js "line1" ++ [NEWLINE]
        ++ js "l10n.get(`pdfjs-editor-${type}-added-alert`)")]
  = Some (mkLoc (js "web/b.js") 2).
Proof. by vm_compute. Qed.

Example scenario_no_dash :
  unused (classify [js "ab"] [mkSource (js "web/a.js") (js "abc")]) = [js "ab"].
Proof. by vm_compute. Qed.

Example scenario_empty_suffix :
  dynamicEntries
    (classify [js "pdfjs-x-y"] [mkSource (js "web/a.js") (js "`pdfjs-${v}`")])
  = [(js "pdfjs-x-y", Some (mkLoc (js "web/a.js") 1))].
Proof. by vm_compute. Qed.

Example scenario_corpus_order :
  findDynamicLocation (js "pdfjs-x-y")
    [mkSource (js "B") ([NEWLINE; NEWLINE] ++ js "`pdfjs-${v}`");
     mkSource (js "A") (js "`pdfjs-${v}`")]
  = Some (mkLoc (js "B") 3).
Proof. by vm_compute. Qed.

Example scenario_catalog :
  ftlIds
    (js "# comment" ++ [NEWLINE] ++ js "foo-bar = Some text" ++ [NEWLINE]
     ++ js "  .title = x" ++ [NEWLINE] ++ js "ab=X" ++ [NEWLINE]
     ++ js "foo-bar  = again" ++ [NEWLINE] ++ js "9a = x" ++ [NEWLINE]
     ++ js "a_b = x")
  = [js "foo-bar"; js "ab"; js "foo-bar"].
Proof. by vm_compute. Qed.

Example scenario_run :
  run demoWorld
  = (mkProcess
       [js "Found 3 message IDs in viewer.ftl" ++ [NEWLINE];
        js "Searching in 2 files under: web, src" ++ [NEWLINE];
        js "~ 1 ID(s) likely built dynamically (template literals):" ++ [NEWLINE];
        js "  pdfjs-editor-stamp-added-alert";
        js "    " ++ [ARROW] ++ js " web/sub/b.mjs:2";
        [];
        [BALLOT_X] ++ js " 1 unused message ID(s):" ++ [NEWLINE];
        js "  ab"]
       (Some 1), Ok tt).
Proof. by vm_compute. Qed.

(** With the slash as root, joining leaves one slash in front of the
    paths; the root followed by a slash then occurs in none of them and the
    report prints them as they are. *)
Example scenario_root_is_slash :
  loadSources rootWorld SEARCH_DIRS SEARCH_EXTENSIONS
  = Ok [mkSource (js "/web/a.js") (js "`pdfjs-${v}`")]
  /\ stdout (fst (run rootWorld))
     = [js "Found 1 message IDs in viewer.ftl" ++ [NEWLINE];
        js "Searching in 1 files under: web, src" ++ [NEWLINE];
        js "~ 1 ID(s) likely built dynamically (template literals):"
        ++ [NEWLINE];
        js "  pdfjs-x-y";
        js "    " ++ [ARROW] ++ js " /web/a.js:1";
        [];
        [CHECK_MARK] ++ js " All remaining message IDs are used."].
Proof. split; by vm_compute. Qed.

Example scenario_path_join :
  pathJoinN [js "/a/b/c"; js ".."; js ".."] = js "/a"
  /\ pathJoin (js "/") (js "web") = js "/web"
  /\ pathJoin (js "/repo/web") (js "sub") = js "/repo/web/sub"
  /\ normalize (js "a/./b//c/../d") = js "a/b/d"
  /\ normalize (js "../a/../../b") = js "../../b"
  /\ normalize (js "/..") = js "/"
  /\ normalize (js "./") = js "./"
  /\ pathJoinN [js ""; js ""] = js ".".
Proof. repeat split; by vm_compute. Qed.

(** ** Instances *)

Lemma isUsed_quoted_literal_witness :
  isUsed (js "foo-bar") [mkSource (js "a.html") (js "<a id='foo-bar'>")] = true
  /\ ~ In (js "foo-bar")
         (unused (classify [js "foo-bar"]
                    [mkSource (js "a.html") (js "<a id='foo-bar'>")])).
Proof.
  assert (isUsed (js "foo-bar")
            [mkSource (js "a.html") (js "<a id='foo-bar'>")] = true) as H
    by (vm_compute; reflexivity).
  split; [exact H|].
  exact (proj1 (proj2 (proj2 (isUsed_quoted_literal _ _) H [js "foo-bar"]))).
Defined.

Lemma fragment_length_guards_witness :
  length (prefixOf (split (js "ab-cd-efghij") DASH) 1) < 6
  /\ tryCandidate (split (js "ab-cd-efghij") DASH)
       [mkSource (js "a.js") (js "`ab-${x}-efghij`")] 1 2 = None.
Proof.
  assert (length (prefixOf (split (js "ab-cd-efghij") DASH) 1) < 6) as H
    by (vm_compute; lia).
  split; [exact H|].
  exact (proj1 (fragment_length_guards (js "ab-cd-efghij")
                  [mkSource (js "a.js") (js "`ab-${x}-efghij`")]) 1 2 H).
Defined.

Lemma dash_free_is_unused_witness :
  ~ In DASH (js "ab")
  /\ findDynamicLocation (js "ab") [mkSource (js "a.js") (js "`ab${x}`")] = None.
Proof.
  assert (~ In DASH (js "ab")) as H
    by (vm_compute; intros [E|[E|[]]]; discriminate E).
  split; [exact H|].
  exact (proj1 (proj2 (dash_free_is_unused (js "ab")
                         [mkSource (js "a.js") (js "`ab${x}`")] H))).
Defined.

Lemma suffix_containment_is_file_wide_witness :
  js "-added-alert" <> []
  /\ fileMatches (js "pdfjs-editor-" ++ [DOLLAR; LBRACE]) (js "-added-alert")
       (mkSource (js "a.js")
          (js "// -added-alert" ++ [NEWLINE] ++ js "`pdfjs-editor-${t}`"))
     = true.
Proof.
  assert (js "-added-alert" <> []) as H by (vm_compute; discriminate).
  split; [exact H|].
  apply (proj1 (proj2 (suffix_containment_is_file_wide (js "pdfjs-editor-")
                         (js "-added-alert")
                         (mkSource (js "a.js")
                            (js "// -added-alert" ++ [NEWLINE]
                             ++ js "`pdfjs-editor-${t}`")) H))
           (js "// ") [NEWLINE; BACKTICK] (js "t}`")).
  vm_compute. reflexivity.
Defined.

Lemma completion_status_witness :
  exists ids sources,
    extractFtlIds demoWorld = Ok ids
    /\ loadSources demoWorld SEARCH_DIRS SEARCH_EXTENSIONS = Ok sources
    /\ (unused (classify ids sources) = [] ->
        completionStatus (run demoWorld) = 0)
    /\ (unused (classify ids sources) <> [] ->
        completionStatus (run demoWorld) = 1)
    /\ (completionStatus (run demoWorld) <> 0 <->
        unused (classify ids sources) <> []).
Proof.
  eapply completion_status. vm_compute. reflexivity.
Defined.

Lemma read_failure_aborts_witness :
  run emptyWorld = (mkProcess [] None, Throw (js "/repo/l10n/en-US/viewer.ftl"))
  /\ exists e,
       run brokenWorld = (mkProcess [countLine [js "foo-bar"]] None, Throw e).
Proof.
  split.
  - apply (proj1 (read_failure_aborts emptyWorld)).
    intros data. vm_compute. discriminate.
  - apply (proj2 (proj2 (proj2 (read_failure_aborts brokenWorld)))
             [js "foo-bar"] (js "web")).
    + vm_compute. reflexivity.
    + left. reflexivity.
    + intros entries. vm_compute. discriminate.
Defined.

Lemma same_identifier_same_class_witness :
  LikelyDynamic (mkLoc (js "web/a.js") 1) = LikelyDynamic (mkLoc (js "web/a.js") 1)
  /\ count_occ jsstring_eq_dec
       (group [js "pdfjs-x-y"; js "ab"; js "pdfjs-x-y"]
          [mkSource (js "web/a.js") (js "`pdfjs-${v}`")]
          (LikelyDynamic (mkLoc (js "web/a.js") 1)))
       (js "pdfjs-x-y")
     = count_occ jsstring_eq_dec [js "pdfjs-x-y"; js "ab"; js "pdfjs-x-y"]
         (js "pdfjs-x-y").
Proof.
  apply (same_identifier_same_class
           [js "pdfjs-x-y"; js "ab"; js "pdfjs-x-y"]
           [mkSource (js "web/a.js") (js "`pdfjs-${v}`")]
           (js "pdfjs-x-y")).
  - vm_compute. left. reflexivity.
  - vm_compute. left. reflexivity.
Defined.

(** * Further properties of the script *)

(** ** The corpus *)

Section CorpusFacts.

Lemma findDynamicLocation_accepted id sources :
  findDynamicLocation id sources <> None <->
  exists i j f, In f sources /\ accepted id i j f.
Proof.
  split.
  - destruct (findDynamicLocation id sources) as [loc|] eqn:E; [|done].
    intros _. unfold findDynamicLocation in E; cbv zeta in E.
    apply forRange_Some in E as (i & Hi & Hin & _).
    apply forRange_Some in Hin as (j & Hj & Htry & _).
    apply tryCandidate_Some in Htry as [Hg Hscan].
    apply scanSources_Some in Hscan as (k & f & Hk & Hm & _ & _).
    apply fileMatches_spec in Hm as [Hc Hs].
    assert (j <= length (split id DASH)) as Hjle by lia.
    rewrite prefixOf_spec in Hg, Hc. rewrite suffixOf_spec in Hg, Hs by done.
    exists i, j, f. split.
    + apply list_elem_of_In, list_elem_of_lookup. by exists k.
    + split; [lia|]. done.
  - intros (i & j & f & Hin & Hacc).
    apply list_elem_of_In, list_elem_of_lookup in Hin as [k Hk].
    intros Hnone. apply (accepted_tryCandidate _ _ _ _ _ _ Hk Hacc).
    pose proof Hacc as ((Hi1 & Hi2 & Hi3) & _).
    unfold findDynamicLocation in Hnone; cbv zeta in Hnone.
    rewrite forRange_None in Hnone.
    specialize (Hnone i ltac:(lia)). rewrite forRange_None in Hnone.
    apply Hnone. lia.
Qed.

Lemma isDynamic_accepted id sources :
  isDynamic id sources = true <->
  exists i j f, In f sources /\ accepted id i j f.
Proof.
  rewrite <- findDynamicLocation_accepted. unfold isDynamic.
  by destruct (findDynamicLocation id sources).
Qed.

Lemma List_filter_sublist {A} (p : A -> bool) (l : list A) :
  List.filter p l `sublist_of` l.
Proof.
  induction l as [|x l IH]; simpl; [done|].
  destruct (p x); by constructor.
Qed.

Lemma List_filter_all {A} (p : A -> bool) (l : list A) :
  (forall x, p x = true) -> List.filter p l = l.
Proof.
  intros Hp. induction l as [|x l IH]; simpl; [done|].
  by rewrite Hp, IH.
Qed.

Lemma List_filter_none {A} (p : A -> bool) (l : list A) :
  (forall x, In x l -> p x = false) -> List.filter p l = [].
Proof.
  induction l as [|x l IH]; simpl; [done|]. intros Hp.
  rewrite (Hp x) by (by left). apply IH. intros y Hy. apply Hp. by right.
Qed.

End CorpusFacts.

(** X1. The static check looks at the files one by one: over two corpora put
    together it is the disjunction of the checks, and the order of the files
    does not change its answer. *)
Theorem isUsed_corpus_order id sources sources' :
  Permutation sources sources' ->
  isUsed id sources = isUsed id sources'
  /\ forall more,
       isUsed id (sources ++ more) = isUsed id sources || isUsed id more.
Proof.
  intros Hp. split.
  - unfold isUsed. cbv zeta.
    match goal with |- existsb ?f _ = _ => set (test := f) end.
    destruct (existsb test sources') eqn:E'.
    + apply existsb_exists in E' as (f & Hf & Ht). apply existsb_exists.
      exists f. split; [|done]. eapply Permutation_in; [symmetry|]; done.
    + destruct (existsb test sources) eqn:E; [|done].
      apply existsb_exists in E as (f & Hf & Ht).
      assert (existsb test sources' = true) as H; [|congruence].
      apply existsb_exists. exists f. split; [|done].
      by eapply Permutation_in.
  - intros more. unfold isUsed. cbv zeta. apply existsb_app.
Qed.

(** X2. The dynamic search succeeds on a corpus exactly when it succeeds on one
    of its files taken alone: the prefix with its marker and the suffix are
    never gathered from two files. *)
Theorem dynamic_match_is_per_file id sources :
  isDynamic id sources = true <->
  exists f, In f sources /\ isDynamic id [f] = true.
Proof.
  rewrite isDynamic_accepted. split.
  - intros (i & j & f & Hin & Hacc). exists f. split; [done|].
    apply isDynamic_accepted. exists i, j, f. split; [by left | done].
  - intros (f & Hin & Hd). apply isDynamic_accepted in Hd
      as (i & j & f' & [<-|[]] & Hacc).
    by exists i, j, f.
Qed.


(** X4. With no source file at all nothing is found: every declared identifier
    is unused, in catalog order, and none is likely dynamic. *)
Theorem empty_corpus_all_unused ids :
  unused (classify ids []) = ids
  /\ dynamicEntries (classify ids []) = []
  /\ usedIds ids [] = [].
Proof.
  assert (forall id, findDynamicLocation id [] = None) as Hd.
  { intros id. destruct (findDynamicLocation id []) eqn:E; [|done].
    assert (findDynamicLocation id [] <> None) as H by congruence.
    apply findDynamicLocation_accepted in H as (? & ? & ? & [] & _). }
  assert (forall id, isUsed id [] = false) as Hu by done.
  split; [|split].
  - rewrite unused_filter. unfold classify; cbn [notFound].
    rewrite !List_filter_all; [done| |]; intros id; [by rewrite Hu|].
    unfold isDynamic. by rewrite Hd.
  - unfold classify; cbn [dynamicEntries].
    apply List_filter_none. intros [id o] Hin.
    apply in_map_iff in Hin as (x & [= <- <-] & _). simpl. by rewrite Hd.
  - unfold usedIds. apply List_filter_none. intros id _. apply Hu.
Qed.

(** X5. Each group of the report lists its identifiers in the order the catalog
    declares them. *)
Theorem groups_keep_catalog_order ids sources :
  usedIds ids sources `sublist_of` ids
  /\ List.map fst (dynamicEntries (classify ids sources)) `sublist_of` ids
  /\ unused (classify ids sources) `sublist_of` ids.
Proof.
  split; [apply List_filter_sublist|]. split.
  - unfold classify; cbn [dynamicEntries]. rewrite dynamic_ids_filter.
    etrans; apply List_filter_sublist.
  - rewrite unused_filter. unfold classify; cbn [notFound].
    etrans; apply List_filter_sublist.
Qed.

(** ** What a dynamic match is made of *)

Section FragmentFacts.

Lemma join_app a b sep :
  a <> [] -> b <> [] -> join (a ++ b) sep = join a sep ++ sep ++ join b sep.
Proof.
  intros Ha Hb. induction a as [|x a IH]; [congruence|].
  destruct a as [|y a].
  - destruct b as [|z b]; [congruence|]. reflexivity.
  - change ((x :: y :: a) ++ b) with (x :: y :: (a ++ b)).
    rewrite join_cons. change (y :: a ++ b) with ((y :: a) ++ b).
    rewrite IH by done. rewrite join_cons. by rewrite <- !app_assoc.
Qed.

Lemma fragments_decompose parts i j :
  1 <= i -> i < j -> j <= length parts ->
  join parts [DASH]
  = specPrefix parts i ++ join (take (j - i) (drop i parts)) [DASH]
    ++ specSuffix parts j.
Proof.
  intros Hi Hij Hj. unfold specPrefix, specSuffix.
  assert (take i parts <> []) as Ht.
  { intros H. apply (f_equal length) in H. rewrite length_take in H.
    simpl in H. lia. }
  assert (take (j - i) (drop i parts) <> []) as Hg.
  { intros H. apply (f_equal length) in H.
    rewrite length_take, length_drop in H. simpl in H. lia. }
  assert (drop i parts = take (j - i) (drop i parts) ++ drop j parts) as Hd.
  { rewrite <- (take_drop (j - i) (drop i parts)) at 1.
    rewrite drop_drop. by replace (i + (j - i)) with j by lia. }
  rewrite <- (take_drop i parts) at 1.
  destruct (decide (j = length parts)) as [->|Hne].
  - rewrite app_nil_r. rewrite drop_all, app_nil_r in Hd.
    rewrite join_app; [|done|by rewrite Hd]. rewrite <- Hd.
    by rewrite <- app_assoc.
  - assert (drop j parts <> []) as Hs.
    { intros H. apply (f_equal length) in H. rewrite length_drop in H.
      simpl in H. lia. }
    assert (drop i parts <> []) as Hdi.
    { intros H. apply (f_equal length) in H. rewrite length_drop in H.
      simpl in H. lia. }
    rewrite join_app by done.
    rewrite Hd at 1. rewrite join_app by done.
    by rewrite <- !app_assoc.
Qed.

Lemma findDynamicLocation_Some_inv id sources loc :
  findDynamicLocation id sources = Some loc ->
  exists i j f,
    In f sources /\ accepted id i j f
    /\ loc = locate (specPrefix (split id DASH) i ++ [DOLLAR; LBRACE]) f.
Proof.
  intros E. unfold findDynamicLocation in E; cbv zeta in E.
  apply forRange_Some in E as (i & Hi & Hin & _).
  apply forRange_Some in Hin as (j & Hj & Htry & _).
  apply tryCandidate_Some in Htry as [Hg Hscan].
  apply scanSources_Some in Hscan as (k & f & Hk & Hm & -> & _).
  apply fileMatches_spec in Hm as [Hc Hs].
  assert (j <= length (split id DASH)) as Hjle by lia.
  rewrite prefixOf_spec in Hg, Hc. rewrite suffixOf_spec in Hg, Hs by done.
  exists i, j, f. split.
  { apply list_elem_of_In, list_elem_of_lookup. by exists k. }
  split; [|by rewrite prefixOf_spec].
  split; [lia | done].
Qed.

Lemma split_app_line pre sep :
  exists ls l,
    split pre sep = ls ++ [l]
    /\ length ls = count_occ N.eq_dec pre sep
    /\ forall s h t, split s sep = h :: t ->
         split (pre ++ s) sep = ls ++ (l ++ h) :: t.
Proof.
  induction pre as [|c pre (ls & l & Hs & Hl & Happ)]; simpl.
  - exists [], []. repeat split; done.
  - destruct (N.eqb_spec c sep) as [->|Hne].
    + destruct (N.eq_dec sep sep); [|done].
      exists ([] :: ls), l. rewrite Hs. repeat split; [simpl; lia|].
      intros s h t Hsp. by rewrite (Happ s h t Hsp).
    + destruct (N.eq_dec c sep); [done|]. rewrite Hs.
      destruct ls as [|w ws]; simpl.
      * exists [], (c :: l). repeat split; [done|].
        intros s h t Hsp. by rewrite (Happ s h t Hsp).
      * exists ((c :: w) :: ws), l. repeat split; [simpl in *; lia|].
        intros s h t Hsp. by rewrite (Happ s h t Hsp).
Qed.

Lemma split_no_sep_app pv post sep h t :
  ~ In sep pv -> split post sep = h :: t ->
  split (pv ++ post) sep = (pv ++ h) :: t.
Proof.
  intros Hn Hsp. induction pv as [|c pv IH]; simpl; [done|].
  destruct (N.eqb_spec c sep) as [->|Hne]; [exfalso; apply Hn; by left|].
  rewrite IH; [done|]. intros H. apply Hn. by right.
Qed.

Lemma count_occ_app_le (pre rest : jsstring) c :
  count_occ N.eq_dec pre c <= count_occ N.eq_dec (pre ++ rest) c.
Proof. rewrite count_occ_app. lia. Qed.

End FragmentFacts.

(** X6. A location is only ever returned for an identifier that falls apart
    into a prefix ending in a dash, a gap and a suffix, where the prefix has
    at least 6 characters and the suffix is empty or starts with a dash and
    has at least 6, and where one file of the corpus holds both the prefix
    followed by the marker and the suffix: an identifier of fewer than 6
    characters is never likely dynamic. *)
Theorem dynamic_match_decomposes id sources loc :
  findDynamicLocation id sources = Some loc ->
  exists prefix gap suffix f,
    id = prefix ++ gap ++ suffix
    /\ (exists stem, prefix = stem ++ [DASH])
    /\ 6 <= length prefix
    /\ (suffix = [] \/ (exists tail, suffix = DASH :: tail) /\ 6 <= length suffix)
    /\ In f sources
    /\ contains (content f) (prefix ++ [DOLLAR; LBRACE])
    /\ contains (content f) suffix
    /\ 6 <= length id.
Proof.
  intros E.
  apply findDynamicLocation_Some_inv in E
    as (i & j & f & Hin & ((Hi & Hij & Hj) & (Hp & Hs) & Hc & Hcs) & _).
  pose proof (fragments_decompose (split id DASH) i j Hi Hij Hj) as Hd.
  rewrite (proj1 (split_join id DASH)) in Hd.
  exists (specPrefix (split id DASH) i),
    (join (take (j - i) (drop i (split id DASH))) [DASH]),
    (specSuffix (split id DASH) j), f.
  unfold MIN_FRAGMENT_LENGTH in *.
  split; [done|]. split; [by eexists|]. split; [done|]. split.
  { destruct Hs as [Hs|Hs]; [by left|right]. split; [|done].
    unfold specSuffix in *. destruct (decide (j = _)); [simpl in Hs; lia|].
    by eexists. }
  split; [done|]. split; [done|]. split.
  { destruct Hcs as [->|Hcs]; [|done]. by exists [], (content f). }
  apply (f_equal length) in Hd. rewrite length_app in Hd. lia.
Qed.

(** X7. The location names a file of the corpus and a line of that file, lines
    counted from 1; and for an identifier without a newline, as every parsed
    identifier is, that line of the file contains a prefix of the identifier
    followed by the interpolation-open marker. *)
Theorem location_is_a_line_of_the_file id sources loc :
  findDynamicLocation id sources = Some loc ->
  exists f,
    In f sources
    /\ loc_path loc = path f
    /\ 1 <= loc_line loc <= length (split (content f) NEWLINE)
    /\ (~ In NEWLINE id ->
        exists line prefix,
          split (content f) NEWLINE !! (loc_line loc - 1) = Some line
          /\ prefix `prefix_of` id
          /\ contains line (prefix ++ [DOLLAR; LBRACE])).
Proof.
  intros E.
  apply findDynamicLocation_Some_inv in E
    as (i & j & f & Hin & ((Hi & Hij & Hj) & _ & Hc & _) & ->).
  destruct (locate_spec _ _ Hc) as (pre & [[post Hcont] _] & ->).
  exists f. split; [done|]. split; [done|]. cbn [loc_line]. split.
  { rewrite split_length. split; [lia|]. rewrite Hcont.
    pose proof (count_occ_app_le pre
                  ((specPrefix (split id DASH) i ++ [DOLLAR; LBRACE]) ++ post)
                  NEWLINE).
    lia. }
  intros Hnl.
  pose proof (fragments_decompose (split id DASH) i j Hi Hij Hj) as Hd.
  rewrite (proj1 (split_join id DASH)) in Hd.
  set (prefix := specPrefix (split id DASH) i) in *.
  assert (~ In NEWLINE (prefix ++ [DOLLAR; LBRACE])) as Hpv.
  { intros H. apply in_app_or in H as [H|H].
    - apply Hnl. rewrite Hd. apply in_or_app. by left.
    - simpl in H. destruct H as [H|[H|[]]]; discriminate H. }
  destruct (split_app_line pre NEWLINE) as (ls & l & _ & Hl & Happ).
  destruct (split post NEWLINE) as [|h t] eqn:Ep;
    [by apply split_nonempty in Ep|].
  pose proof (split_no_sep_app _ _ _ _ _ Hpv Ep) as Hmid.
  specialize (Happ _ _ _ Hmid).
  exists (l ++ (prefix ++ [DOLLAR; LBRACE]) ++ h), prefix.
  split; [|split].
  - rewrite Hcont, Happ. replace (S _ - 1) with (length ls) by lia.
    by rewrite list_lookup_middle.
  - eexists. exact Hd.
  - by exists l, h.
Qed.

(** ** What the parser returns *)

Section CatalogFacts.

Lemma split_app_sep a b sep :
  split (a ++ sep :: b) sep = split a sep ++ split b sep.
Proof.
  induction a as [|c a IH]; simpl.
  - by rewrite N.eqb_refl.
  - rewrite IH. destruct (c =? sep)%N; [done|].
    destruct (split a sep) eqn:E; [by apply split_nonempty in E | done].
Qed.

Lemma split_join_inv lines sep :
  lines <> [] -> Forall (fun line => ~ In sep line) lines ->
  split (join lines [sep]) sep = lines.
Proof.
  intros Hne Hall. induction Hall as [|x lines Hx Hall IH]; [done|].
  assert (split x sep = [x]) as Hsx
    by (apply split_no_sep; by rewrite list_elem_of_In).
  destruct lines as [|y rest]; [done|].
  rewrite join_cons. change ([sep] ++ ?t) with (sep :: t).
  rewrite split_app_sep, Hsx, IH by done. done.
Qed.

Lemma ftlIds_omap text : ftlIds text = omap matchDecl (split text NEWLINE).
Proof. unfold ftlIds. cbv zeta. by rewrite ftlIds_fold. Qed.

Lemma declares_validId line id : declares line id -> validId id.
Proof. intros (c & cs & _ & _ & -> & Hc & Hcs & _). by exists c, cs. Qed.

Lemma validId_chars id c :
  validId id -> In c id -> isIdChar c = true.
Proof.
  intros (a & cs & -> & Ha & Hcs) [<-|Hin]; [by apply letter_is_idChar|].
  rewrite Forall_forall in Hcs. by apply Hcs, list_elem_of_In.
Qed.

Lemma matchDecl_render id value :
  validId id -> matchDecl (id ++ js " = " ++ value) = Some id.
Proof.
  intros (c & cs & -> & Hc & Hcs). apply matchDecl_complete.
  exists c, cs, [32%N], (32%N :: value).
  repeat split; try done. by constructor.
Qed.

End CatalogFacts.

(** X8. Every identifier the parser returns is well formed, a letter followed
    by letters, digits and dashes, and it is all of the identifier its line
    starts with: the character after it is of another kind.  So a parsed
    identifier holds no newline and none of the three quote characters. *)
Theorem parsed_ids_are_well_formed text id :
  In id (ftlIds text) ->
  validId id
  /\ (exists line c rest,
        In line (split text NEWLINE) /\ line = id ++ c :: rest
        /\ isIdChar c = false)
  /\ ~ In NEWLINE id
  /\ (forall q, In q [DQUOTE; SQUOTE; BACKTICK] -> ~ In q id).
Proof.
  intros Hin. rewrite ftlIds_omap in Hin.
  apply list_elem_of_In, list_elem_of_omap in Hin as (line & Hline & Hm).
  apply matchDecl_sound in Hm. pose proof (declares_validId _ _ Hm) as Hv.
  split; [done|]. split.
  { destruct Hm as (c & cs & ws & rest & -> & _ & _ & Hws & ->).
    destruct (declares_tail ws rest Hws) as (h & t & Et & Hh).
    rewrite Et in Hline.
    exists ((c :: cs) ++ h :: t), h, t. split; [|done].
    by apply list_elem_of_In. }
  split.
  - intros H. by apply (validId_chars _ _ Hv) in H.
  - intros q Hq H. apply (validId_chars _ _ Hv) in H.
    simpl in Hq. destruct Hq as [<-|[<-|[<-|[]]]]; done.
Qed.

(** X9. The parser works line by line: the identifiers of two texts joined by a
    newline are those of the first followed by those of the second, and the
    empty text declares nothing. *)
Theorem ftlIds_concatenation a b :
  ftlIds (a ++ [NEWLINE] ++ b) = ftlIds a ++ ftlIds b /\ ftlIds [] = [].
Proof.
  split; [|done]. rewrite !ftlIds_omap.
  change ([NEWLINE] ++ b) with (NEWLINE :: b).
  by rewrite split_app_sep, omap_app.
Qed.

(** X10. Round trip: a catalog written as one line [id = value] per entry, with
    well-formed identifiers and values free of newlines, parses back to its
    identifiers, in order and with duplicates. *)
Theorem ftlIds_of_rendered_catalog entries :
  Forall (fun e => validId (fst e) /\ ~ In NEWLINE (snd e)) entries ->
  ftlIds (renderCatalog entries) = List.map fst entries.
Proof.
  intros Hall. rewrite ftlIds_omap. unfold renderCatalog.
  destruct entries as [|e0 entries0] eqn:Ee; [done|]. rewrite <- Ee in *.
  rewrite split_join_inv.
  - clear Ee. induction Hall as [|[id value] entries [Hv _] _ IH]; [done|].
    cbn [List.map fst snd omap list_omap] in *.
    by rewrite (matchDecl_render id value Hv), IH.
  - by rewrite Ee.
  - clear Ee. induction Hall as [|[id value] entries [Hv Hn] _ IH];
      constructor; [|done].
    cbn [fst snd] in *. intros H. apply in_app_or in H as [H|H].
    + by apply (validId_chars _ _ Hv) in H.
    + apply in_app_or in H as [H|H]; [|done].
      vm_compute in H. destruct H as [H|[H|[H|[]]]]; discriminate H.
Qed.

(** ** What a run writes *)

Section ReportFacts.

Lemma forEach_lines {A} (g : A -> list jsstring) (body : A -> M unit) l :
  (forall x, In x l ->
     forall p, body x p = (mkProcess (stdout p ++ g x) (exitCode p), Ok tt)) ->
  forall p,
    forEach l body p
    = (mkProcess (stdout p ++ flat_map g l) (exitCode p), Ok tt).
Proof.
  induction l as [|x l IH]; intros Hb p.
  - cbn [forEach flat_map]. unfold ret. rewrite app_nil_r. by destruct p.
  - cbn [forEach flat_map]. unfold bind. rewrite Hb by (by left).
    rewrite IH by (intros y Hy; apply Hb; by right).
    cbn [stdout exitCode]. by rewrite <- app_assoc.
Qed.

Lemma dynamicEntries_located_list ids sources :
  dynamicEntries (classify ids sources)
  = List.map (fun e => (fst e, Some (snd e))) (locatedEntries ids sources).
Proof.
  unfold classify; cbn [dynamicEntries]. unfold locatedEntries.
  induction (List.filter (fun id => negb (isUsed id sources)) ids)
    as [|id l IH]; [done|].
  cbn [List.map List.filter omap list_omap snd].
  destruct (findDynamicLocation id sources) as [loc|]; [|done].
  cbn [List.map fst snd]. by rewrite IH.
Qed.

Lemma reportDynamic_exact w located p :
  located <> [] ->
  reportDynamic w (List.map (fun e => (fst e, Some (snd e))) located) p
  = (mkProcess (stdout p ++ dynamicSection (ROOT w) located) (exitCode p),
     Ok tt).
Proof.
  intros Hne. unfold reportDynamic, dynamicSection.
  destruct located as [|e0 rest] eqn:El; [done|]. rewrite <- El. clear Hne El.
  set (lines := fun e : jsstring * MatchLocation =>
         [js "  " ++ fst e;
          js "    " ++ [ARROW] ++ js " "
          ++ relativePath (ROOT w) (loc_path (snd e)) ++ js ":"
          ++ numToString (loc_line (snd e))]).
  set (g := fun e : DynamicEntry =>
         match snd e with
         | Some loc => lines (fst e, loc)
         | None => []
         end).
  assert (flat_map g (List.map (fun e => (fst e, Some (snd e))) located)
          = flat_map lines located) as Hflat.
  { induction located as [|[id loc] l IH]; [done|].
    cbn [List.map flat_map fst snd]. by rewrite IH. }
  unfold bind at 1. unfold console_log at 1. cbn [stdout exitCode].
  unfold bind at 1. rewrite (forEach_lines g).
  - unfold console_log. cbn [stdout exitCode]. rewrite length_map, Hflat.
    by rewrite <- !app_assoc.
  - intros e He q. apply in_map_iff in He as ([id loc] & <- & _).
    unfold g, lines. cbn [fst snd].
    unfold bind, console_log. cbn [stdout exitCode].
    by rewrite <- app_assoc.
Qed.

End ReportFacts.

Section RunFacts.

Lemma reportUnused_exact unused p :
  reportUnused unused p
  = (mkProcess (stdout p ++ unusedSection unused)
       (match unused with [] => exitCode p | _ :: _ => Some 1 end), Ok tt).
Proof.
  unfold reportUnused, unusedSection. destruct unused as [|id rest] eqn:Eu.
  - change (length (@nil jsstring) =? 0) with true. by cbv iota.
  - change (length (id :: rest) =? 0) with false. cbv iota. rewrite <- Eu.
    unfold bind at 1. unfold console_log at 1. cbn [stdout exitCode].
    unfold bind at 1.
    rewrite (forEach_lines (fun id0 => [js "  " ++ id0]))
      by (intros; reflexivity).
    assert (flat_map (fun id0 => [js "  " ++ id0]) unused
            = List.map (fun id0 => js "  " ++ id0) unused) as ->.
    { clear Eu. induction unused as [|x l IH]; [done|].
      cbn [flat_map List.map]. by rewrite IH. }
    unfold setExitCode. cbn [stdout exitCode]. by rewrite <- app_assoc.
Qed.

Lemma startsWith_app pat rest : startsWith (pat ++ rest) pat = true.
Proof. apply startsWith_spec. by exists rest. Qed.

Lemma replaceEmpty_prefix pat rest : replaceEmpty (pat ++ rest) pat = rest.
Proof.
  unfold replaceEmpty, indexOf.
  assert (indexOfFrom (pat ++ rest) pat 0 = 0%Z) as ->.
  { destruct (pat ++ rest) eqn:E; simpl; rewrite <- E;
      by rewrite startsWith_app. }
  change (Z.to_nat 0) with 0. simpl. by rewrite drop_app_length.
Qed.

Lemma replaceEmpty_absent s pat : ~ contains s pat -> replaceEmpty s pat = s.
Proof.
  intros Hn. unfold replaceEmpty.
  destruct (indexOf_cases s pat) as [[_ ->]|(pre & [[post E] _] & _)]; [done|].
  exfalso. apply Hn. by exists pre, post.
Qed.

End RunFacts.

(** X11. The report of a run that reads both inputs, line by line: the count of
    declared identifiers, the count of files searched, then, if any
    identifier is likely dynamic, a header with their number, two lines per
    identifier (its name, its location) and an empty line, and last either
    the line saying all is used or a header with the number of unused
    identifiers followed by one line per unused identifier in catalog order.
    The exit code is set to 1 in that last case only. *)
Theorem report_of_a_run w ids sources :
  extractFtlIds w = Ok ids ->
  loadSources w SEARCH_DIRS SEARCH_EXTENSIONS = Ok sources ->
  run w
  = (mkProcess
       ([countLine ids; searchLine sources]
        ++ dynamicSection (ROOT w) (locatedEntries ids sources)
        ++ unusedSection (unused (classify ids sources)))
       (match unused (classify ids sources) with
        | [] => None
        | _ :: _ => Some 1
        end), Ok tt).
Proof.
  intros Hids Hsrc. unfold run, main.
  step_lift Hids. step_log. step_lift Hsrc. step_log.
  cbv zeta. unfold bind at 1. rewrite dynamicEntries_located_list.
  rewrite length_map.
  destruct (locatedEntries ids sources) as [|e0 rest] eqn:El.
  - change (0 <? length (@nil (jsstring * MatchLocation))) with false.
    cbv iota. unfold ret. rewrite reportUnused_exact.
    cbn [stdout exitCode]. reflexivity.
  - change (0 <? length (e0 :: rest)) with true. cbv iota.
    rewrite reportDynamic_exact by done. rewrite reportUnused_exact.
    cbn [stdout exitCode]. rewrite <- !app_assoc. reflexivity.
Qed.

(** X12. The location lines of the report give paths relative to the project
    root: the root and the slash after it are cut off a path that starts
    with them, and a path that holds neither the root followed by a slash
    nor the root followed by a backslash is printed as it is. *)
Theorem relativePath_strips_root root p :
  ~ contains p (root ++ [BACKSLASH]) ->
  relativePath root (root ++ [SLASH] ++ p) = p
  /\ (~ contains p (root ++ [SLASH]) -> relativePath root p = p).
Proof.
  intros Hb. unfold relativePath. split.
  - rewrite app_assoc, replaceEmpty_prefix. by apply replaceEmpty_absent.
  - intros Hs. rewrite (replaceEmpty_absent p) by done.
    by apply replaceEmpty_absent.
Qed.

(** X13. The process ends with status 0 exactly when the catalog and the sources
    were read and no identifier is unused; in every other case, a read
    failure included, it ends with status 1. *)
Theorem status_zero_means_all_used w :
  (completionStatus (run w) = 0 <->
   exists ids sources,
     extractFtlIds w = Ok ids
     /\ loadSources w SEARCH_DIRS SEARCH_EXTENSIONS = Ok sources
     /\ unused (classify ids sources) = [])
  /\ (completionStatus (run w) = 0 \/ completionStatus (run w) = 1).
Proof.
  destruct (extractFtlIds w) as [ids|e] eqn:Hids.
  2:{ rewrite (main_catalog_unreadable w e Hids). simpl. split; [|by right].
      split; [done|]. by intros (? & ? & ? & _). }
  destruct (loadSources w SEARCH_DIRS SEARCH_EXTENSIONS) as [sources|e] eqn:Hsrc.
  2:{ rewrite (main_sources_unreadable w ids e Hids Hsrc). simpl.
      split; [|by right]. split; [done|]. by intros (? & ? & _ & ? & _). }
  destruct (main_run w ids sources Hids Hsrc) as [out ->].
  destruct (unused (classify ids sources)) as [|u us] eqn:Eu; simpl.
  - split; [|by left]. split; [|done]. intros _. by exists ids, sources.
  - split; [|by right]. split; [done|].
    intros (ids' & sources' & [= <-] & [= <-] & H).
    change (unused (classify ids sources) = []) in H. congruence.
Qed.

(** ** The walk over the source directories *)

Section WalkFacts.

Lemma node_rect' (P : node -> Prop) :
  (forall data, P (File data)) ->
  P (Dir None) ->
  P Dangling ->
  (forall entries, Forall (fun e => P (snd e)) entries -> P (Dir (Some entries))) ->
  forall n, P n.
Proof.
  intros HF HN HD HS. fix IH 1.
  intros [data|[entries|]|]; [apply HF| |apply HN|apply HD].
  apply HS. induction entries as [|[name child] entries IHe]; constructor.
  - apply IH.
  - apply IHe.
Qed.

Lemma collectFiles_flatMapR dir entries extensions :
  collectFiles dir (Dir (Some entries)) extensions
  = flatMapR (collectEntry dir extensions) entries.
Proof.
  cbn [collectFiles].
  match goal with
  | |- ?loop entries [] = _ =>
      assert (forall es acc,
                loop es acc
                = bindR (flatMapR (collectEntry dir extensions) es)
                    (fun t => Ok (acc ++ t))) as Hloop
  end.
  { induction es as [|[entry child] es IH]; intros acc.
    - cbn. by rewrite app_nil_r.
    - cbn [flatMapR]. unfold collectEntry at 1. cbn [fst snd].
      destruct child as [data|entries'|].
      + cbn -[has flatMapR collectEntry collectFiles].
        destruct (has (extname entry) extensions) eqn:Ex; rewrite IH;
          cbn [bindR]; destruct (flatMapR _ es); cbn [bindR]; try done.
        by rewrite <- app_assoc.
      + cbn -[has flatMapR collectEntry collectFiles].
        destruct (collectFiles (pathJoin dir entry) (Dir entries') extensions)
          as [sub|e] eqn:Ec; cbn [bindR]; [|done].
        rewrite IH. destruct (flatMapR _ es); cbn [bindR]; [|done].
        by rewrite <- app_assoc.
      + done. }
  rewrite Hloop. by destruct (flatMapR _ entries).
Qed.

Lemma flatMapR_Ok {A B} (f : A -> result (list B)) xs ys :
  flatMapR f xs = Ok ys ->
  (forall x, In x xs -> exists zs, f x = Ok zs /\ forall z, In z zs -> In z ys)
  /\ (forall y, In y ys -> exists x zs, In x xs /\ f x = Ok zs /\ In y zs).
Proof.
  revert ys. induction xs as [|x xs IH]; intros ys; cbn [flatMapR].
  - intros [= <-]. split; [by intros ? [] | by intros ? []].
  - destruct (f x) as [zs|e] eqn:Ef; cbn [bindR]; [|done].
    destruct (flatMapR f xs) as [ws|e] eqn:Er; cbn [bindR]; [|done].
    intros [= <-]. destruct (IH ws eq_refl) as [IH1 IH2]. split.
    + intros x' [<-|Hin].
      * exists zs. split; [done|]. intros z Hz. apply in_or_app. by left.
      * destruct (IH1 x' Hin) as (zs' & Hz' & Hsub). exists zs'.
        split; [done|]. intros z Hz. apply in_or_app. right. by apply Hsub.
    + intros y Hy. apply in_app_or in Hy as [Hy|Hy].
      * exists x, zs. split; [by left | done].
      * destruct (IH2 y Hy) as (x' & zs' & Hin & Hf & Hz).
        exists x', zs'. split; [by right | done].
Qed.

Lemma mapR_Ok {A B} (f : A -> result B) xs ys :
  mapR f xs = Ok ys -> Forall2 (fun x y => f x = Ok y) xs ys.
Proof.
  revert ys. induction xs as [|x xs IH]; intros ys; cbn [mapR].
  - intros [= <-]. constructor.
  - destruct (f x) as [y|e] eqn:Ef; cbn [bindR]; [|done].
    destruct (mapR f xs) as [ws|e] eqn:Er; cbn [bindR]; [|done].
    intros [= <-]. constructor; [done | by apply IH].
Qed.

Lemma collectFiles_collected n :
  forall dir extensions files,
    collectFiles dir n extensions = Ok files ->
    forall item, In item files -> collected dir n extensions item.
Proof.
  induction n as [data| | |entries IH] using node_rect';
    intros dir extensions files Hc item Hin; try done.
  rewrite collectFiles_flatMapR in Hc.
  apply flatMapR_Ok in Hc as [_ Hc].
  destruct (Hc item Hin) as ([entry child] & zs & He & Hf & Hz).
  rewrite Forall_forall in IH.
  specialize (IH (entry, child) ltac:(by apply list_elem_of_In)).
  unfold collectEntry in Hf. cbn [fst snd] in *.
  destruct child as [data|entries'|]; [| |done].
  - destruct (has (extname entry) extensions) eqn:Ex;
      injection Hf as <-; [|done].
    destruct Hz as [<-|[]]. exists [entry], data.
    split; [done|]. split; [|done].
    eapply Reaches_entry; [exact He | constructor].
  - destruct (IH _ _ _ Hf _ Hz) as (names & data & Hne & Hr & Hx & ->).
    exists (entry :: names), data. split; [done|]. split.
    { eapply Reaches_entry; [exact He | exact Hr]. }
    split; [|done]. by destruct names.
Qed.

Lemma resolve_Reaches names :
  forall n target, resolve n names = Some target -> Reaches n names target.
Proof.
  induction names as [|name names IH]; intros n target.
  - intros [= ->]. constructor.
  - simpl. destruct n as [|[entries|]|]; try done.
    destruct (lookupEntry entries name) as [child|] eqn:E; [|done].
    intros H. eapply Reaches_entry; [|by apply IH].
    clear -E. induction entries as [|[n c] entries IHe]; simpl in *; [done|].
    destruct (strEq n name) eqn:En.
    + apply strEq_spec in En as ->. injection E as ->. by left.
    + right. by apply IHe.
Qed.

End WalkFacts.

Section LoadFacts.

Lemma lookupEntry_In entries name child :
  lookupEntry entries name = Some child -> In (name, child) entries.
Proof.
  induction entries as [|[n c] entries IH]; simpl; [done|].
  destruct (strEq n name) eqn:E.
  - apply strEq_spec in E as ->. intros [= ->]. by left.
  - intros H. right. by apply IH.
Qed.

Lemma resolve_step n name names target :
  resolve n (name :: names) = Some target ->
  exists entries child,
    n = Dir (Some entries) /\ In (name, child) entries
    /\ resolve child names = Some target.
Proof.
  simpl. destruct n as [|[entries|]|]; try done.
  destruct (lookupEntry entries name) as [child|] eqn:E; [|done].
  intros H. exists entries, child. split; [done|].
  split; [by apply lookupEntry_In | done].
Qed.

Lemma resolve_cons n name names :
  resolve n (name :: names)
  = match resolve n [name] with
    | Some child => resolve child names
    | None => None
    end.
Proof.
  simpl. destruct n as [|[entries|]|]; try done.
  by destruct (lookupEntry entries name).
Qed.

Lemma collectFiles_resolved names :
  forall n dir extensions files data,
    collectFiles dir n extensions = Ok files ->
    names <> [] ->
    resolve n names = Some (File data) ->
    has (extname (List.last names [])) extensions = true ->
    In (fold_left pathJoin names dir, File data) files.
Proof.
  induction names as [|name rest IH]; intros n dir extensions files data;
    [done|].
  intros Hc _ Hr Hx.
  apply resolve_step in Hr as (entries & child & -> & Hin & Hr).
  rewrite collectFiles_flatMapR in Hc. apply flatMapR_Ok in Hc as [Hc _].
  destruct (Hc _ Hin) as (zs & Hz & Hsub). apply Hsub.
  unfold collectEntry in Hz. cbn [fst snd] in Hz.
  destruct rest as [|r rest].
  - injection Hr as ->. cbn [List.last] in Hx. rewrite Hx in Hz.
    injection Hz as <-. by left.
  - destruct child as [d|entries'|]; [done| |done].
    cbn [fold_left]. eapply (IH (Dir entries')); try done.
Qed.

Lemma Forall2_In_left {A B} (P : A -> B -> Prop) xs ys x :
  Forall2 P xs ys -> In x xs -> exists y, In y ys /\ P x y.
Proof.
  induction 1 as [|x' y' xs ys Hp _ IH]; [done|]. intros [<-|Hin].
  - exists y'. split; [by left | done].
  - destruct (IH Hin) as (y & Hy & Hpy). exists y. split; [by right | done].
Qed.

Lemma Forall2_In_right {A B} (P : A -> B -> Prop) xs ys y :
  Forall2 P xs ys -> In y ys -> exists x, In x xs /\ P x y.
Proof.
  induction 1 as [|x' y' xs ys Hp _ IH]; [done|]. intros [<-|Hin].
  - exists x'. split; [by left | done].
  - destruct (IH Hin) as (x & Hx & Hpx). exists x. split; [by right | done].
Qed.

Lemma loadSources_inv w dirs extensions sources :
  loadSources w dirs extensions = Ok sources ->
  exists files,
    flatMapR
      (fun d =>
         match resolve (disk w) [d] with
         | Some n => collectFiles (pathJoin (ROOT w) d) n extensions
         | None => Throw (pathJoin (ROOT w) d)
         end)
      dirs = Ok files
    /\ Forall2
         (fun (f : jsstring * node) s =>
            exists text, snd f = File (Some text) /\ s = mkSource (fst f) text)
         files sources.
Proof.
  unfold loadSources. intros H.
  match goal with
  | H : bindR ?r _ = _ |- _ => destruct r as [files|e] eqn:Ef; [|done]
  end.
  exists files. split; [done|]. cbn [bindR] in H. apply mapR_Ok in H.
  eapply Forall2_impl; [exact H|]. intros [p n] s Hs. cbn [fst snd] in *.
  unfold readFileSync in Hs. destruct n as [[text|]|?|]; try done.
  injection Hs as <-. by exists text.
Qed.

End LoadFacts.

(** X14. [collectFiles] returns files of the directory tree only, never a
    directory and nothing from elsewhere: each item is a file that a
    non-empty chain of entry names leads to from the directory, its own name
    has one of the wanted extensions, and its path is the directory's with
    the names of the chain joined to it one after the other. *)
Theorem collectFiles_only_wanted_files dir n extensions files :
  collectFiles dir n extensions = Ok files ->
  Forall (collected dir n extensions) files.
Proof.
  intros Hc. apply Forall_forall. intros item Hin.
  apply list_elem_of_In in Hin. by eapply collectFiles_collected.
Qed.

(** X15. [collectFiles] misses nothing: when it returns, every file that path
    resolution reaches below the directory, and whose name has a wanted
    extension, is among the results under its joined path. *)
Theorem collectFiles_finds_every_wanted_file dir n extensions files names data :
  collectFiles dir n extensions = Ok files ->
  names <> [] ->
  resolve n names = Some (File data) ->
  has (extname (List.last names [])) extensions = true ->
  In (fold_left pathJoin names dir, File data) files.
Proof. intros. by eapply collectFiles_resolved. Qed.

(** X16. When [loadSources] returns, every source it gives is a file of
    the tree of one of the search directories: a non-empty chain of entry
    names leads from that directory to a readable file whose text is the
    source's content and whose own name has a wanted extension, and the
    source's path is the root joined with the directory's name and then
    with the names of the chain.  Conversely every file with a wanted
    extension that path resolution reaches below a search directory was
    read and is among the sources with its content. *)
Theorem loadSources_is_the_wanted_files w dirs extensions sources :
  loadSources w dirs extensions = Ok sources ->
  Forall
    (fun s =>
       exists d nd names,
         In d dirs
         /\ resolve (disk w) [d] = Some nd
         /\ names <> []
         /\ Reaches nd names (File (Some (content s)))
         /\ has (extname (List.last names [])) extensions = true
         /\ path s = fold_left pathJoin names (pathJoin (ROOT w) d))
    sources
  /\ (forall d names data,
        In d dirs -> names <> [] ->
        resolve (disk w) (d :: names) = Some (File data) ->
        has (extname (List.last names [])) extensions = true ->
        exists text,
          data = Some text
          /\ In (mkSource (fold_left pathJoin names (pathJoin (ROOT w) d)) text)
               sources).
Proof.
  intros Hl. apply loadSources_inv in Hl as (files & Hf & H2).
  apply flatMapR_Ok in Hf as [Hf1 Hf2]. split.
  - apply Forall_forall. intros s Hs. apply list_elem_of_In in Hs.
    destruct (Forall2_In_right _ _ _ _ H2 Hs) as ([p n] & Hin & text & Hn & ->).
    cbn [fst snd content path] in *.
    destruct (Hf2 _ Hin) as (d & zs & Hd & Hz & Hpz).
    destruct (resolve (disk w) [d]) as [nd|] eqn:Hr; [|done].
    destruct (collectFiles_collected _ _ _ _ Hz _ Hpz)
      as (names & data & Hne & Hreach & Hx & [= -> ->]).
    injection Hn as ->. by exists d, nd, names.
  - intros d names data Hd Hne Hr Hx.
    destruct (Hf1 d Hd) as (zs & Hz & Hsub).
    rewrite resolve_cons in Hr.
    destruct (resolve (disk w) [d]) as [nd|]; [|done].
    pose proof (collectFiles_resolved names _ _ _ _ _ Hz Hne Hr Hx) as Hin.
    apply Hsub in Hin.
    destruct (Forall2_In_left _ _ _ _ H2 Hin) as (s & Hs & text & Ht & ->).
    cbn [fst snd] in *. injection Ht as ->. by exists text.
Qed.

(** ** Instances of the further properties *)

Lemma isUsed_corpus_order_witness :
  isUsed (js "ab")
    [mkSource (js "a.js") (js "x"); mkSource (js "b.js") (js "'ab'")]
  = isUsed (js "ab")
      [mkSource (js "b.js") (js "'ab'"); mkSource (js "a.js") (js "x")].
Proof.
  apply (isUsed_corpus_order (js "ab")
           [mkSource (js "a.js") (js "x"); mkSource (js "b.js") (js "'ab'")]
           [mkSource (js "b.js") (js "'ab'"); mkSource (js "a.js") (js "x")]).
  apply perm_swap.
Defined.

Lemma dynamic_match_decomposes_witness :
  exists prefix gap suffix f,
    js "pdfjs-editor-stamp-added-alert" = prefix ++ gap ++ suffix
    /\ (exists stem, prefix = stem ++ [DASH])
    /\ 6 <= length prefix
    /\ (suffix = [] \/ (exists tail, suffix = DASH :: tail) /\ 6 <= length suffix)
    /\ In f demoSources
    /\ contains (content f) (prefix ++ [DOLLAR; LBRACE])
    /\ contains (content f) suffix
    /\ 6 <= length (js "pdfjs-editor-stamp-added-alert").
Proof.
  apply (dynamic_match_decomposes (js "pdfjs-editor-stamp-added-alert")
           demoSources (mkLoc (js "/repo/web/sub/b.mjs") 2)).
  vm_compute. reflexivity.
Defined.

Lemma location_is_a_line_of_the_file_witness :
  exists f,
    In f demoSources
    /\ loc_path (mkLoc (js "/repo/web/sub/b.mjs") 2) = path f
    /\ 1 <= loc_line (mkLoc (js "/repo/web/sub/b.mjs") 2)
         <= length (split (content f) NEWLINE)
    /\ (~ In NEWLINE (js "pdfjs-editor-stamp-added-alert") ->
        exists line prefix,
          split (content f) NEWLINE
            !! (loc_line (mkLoc (js "/repo/web/sub/b.mjs") 2) - 1) = Some line
          /\ prefix `prefix_of` js "pdfjs-editor-stamp-added-alert"
          /\ contains line (prefix ++ [DOLLAR; LBRACE])).
Proof.
  apply (location_is_a_line_of_the_file (js "pdfjs-editor-stamp-added-alert")
           demoSources (mkLoc (js "/repo/web/sub/b.mjs") 2)).
  vm_compute. reflexivity.
Defined.

Lemma parsed_ids_are_well_formed_witness :
  In (js "ab") (ftlIds (js "# c" ++ [NEWLINE] ++ js "ab = z"))
  /\ validId (js "ab").
Proof.
  assert (In (js "ab") (ftlIds (js "# c" ++ [NEWLINE] ++ js "ab = z"))) as H
    by (vm_compute; left; reflexivity).
  split; [exact H|].
  exact (proj1 (parsed_ids_are_well_formed _ _ H)).
Defined.

Lemma ftlIds_of_rendered_catalog_witness :
  ftlIds (renderCatalog [(js "foo-bar", js "Some text"); (js "ab", js "= x")])
  = [js "foo-bar"; js "ab"].
Proof.
  apply (ftlIds_of_rendered_catalog
           [(js "foo-bar", js "Some text"); (js "ab", js "= x")]).
  repeat constructor.
  - exists 102%N, (js "oo-bar"). split; [reflexivity|].
    split; [reflexivity|]. vm_compute. repeat constructor.
  - vm_compute. intuition discriminate.
  - exists 97%N, (js "b"). split; [reflexivity|].
    split; [reflexivity|]. vm_compute. repeat constructor.
  - vm_compute. intuition discriminate.
Defined.

Lemma report_of_a_run_witness :
  run demoWorld
  = (mkProcess
       ([countLine demoIds; searchLine demoSources]
        ++ dynamicSection (ROOT demoWorld) (locatedEntries demoIds demoSources)
        ++ unusedSection (unused (classify demoIds demoSources)))
       (match unused (classify demoIds demoSources) with
        | [] => None
        | _ :: _ => Some 1
        end), Ok tt).
Proof.
  apply (report_of_a_run demoWorld demoIds demoSources);
    vm_compute; reflexivity.
Defined.

Lemma relativePath_strips_root_witness :
  relativePath (js "/repo") (js "/repo" ++ [SLASH] ++ js "web/sub/b.mjs")
  = js "web/sub/b.mjs".
Proof.
  apply (proj1 (relativePath_strips_root (js "/repo") (js "web/sub/b.mjs")
                  ltac:(apply includes_false; vm_compute; reflexivity))).
Defined.

Lemma collectFiles_only_wanted_files_witness :
  Forall (collected (js "/repo/web") demoWeb SEARCH_EXTENSIONS)
    [(js "/repo/web/viewer.html", File (Some (js "<a data-l10n-id='foo-bar'>")));
     (js "/repo/web/sub/b.mjs",
      File (Some (js "x" ++ [NEWLINE] ++ js "`pdfjs-editor-${t}-added-alert`")))].
Proof.
  apply (collectFiles_only_wanted_files (js "/repo/web") demoWeb).
  vm_compute. reflexivity.
Defined.

Lemma collectFiles_finds_every_wanted_file_witness :
  In (fold_left pathJoin [js "sub"; js "b.mjs"] (js "/repo/web"),
      File (Some (js "x" ++ [NEWLINE] ++ js "`pdfjs-editor-${t}-added-alert`")))
    [(js "/repo/web/viewer.html", File (Some (js "<a data-l10n-id='foo-bar'>")));
     (js "/repo/web/sub/b.mjs",
      File (Some (js "x" ++ [NEWLINE] ++ js "`pdfjs-editor-${t}-added-alert`")))].
Proof.
  apply (collectFiles_finds_every_wanted_file (js "/repo/web") demoWeb
           SEARCH_EXTENSIONS).
  - vm_compute. reflexivity.
  - discriminate.
  - vm_compute. reflexivity.
  - vm_compute. reflexivity.
Defined.

Lemma loadSources_is_the_wanted_files_witness :
  Forall
    (fun s =>
       exists d nd names,
         In d SEARCH_DIRS
         /\ resolve (disk demoWorld) [d] = Some nd
         /\ names <> []
         /\ Reaches nd names (File (Some (content s)))
         /\ has (extname (List.last names [])) SEARCH_EXTENSIONS = true
         /\ path s = fold_left pathJoin names (pathJoin (ROOT demoWorld) d))
    demoSources.
Proof.
  apply (proj1 (loadSources_is_the_wanted_files demoWorld SEARCH_DIRS
                  SEARCH_EXTENSIONS demoSources
                  ltac:(vm_compute; reflexivity))).
Defined.
